(** * Cartesian <-> Frenet frame conversion (Apollo planning)

    A shallow embedding of
    [modules/planning/math/frame_conversion/cartesian_frenet_conversion.cc].

    Numbers.  The C++ type [double] is read as the field of real numbers [R]
    of the Standard Library: the converter is a set of closed-form formulas
    and the properties established below are the algebraic ones (which value
    a formula denotes, when two formulas denote the same value, which
    divisor cannot vanish).  Rounding, signed zeros, infinities and NaN are
    outside this reading.  Division follows the Standard Library, where
    [x / 0 = x * / 0 = 0]; every statement that relies on a divisor being
    non-zero says so explicitly.  A second transcription of the converter,
    [binary64], reads [double] as IEEE 754 binary64; it is used where the
    two readings part ways, and the properties concerned say which reading
    they are about.

    Output parameters.  The C++ functions write their results through
    pointers; here they return them: [cartesian_to_frenet] returns the pair
    (s_condition, d_condition), [frenet_to_cartesian] returns a record of the
    six outputs.  A failed [CHECK] aborts the process, which is the result
    [None]. *)

From Stdlib Require Import Reals Lra Lia ZArith Zfloor List.
From Stdlib Require Floats.

Open Scope R_scope.

(** ** <cmath> *)

Module cmath.

(** [std::copysign (x, y)]: the magnitude of [x] with the sign of [y].  The
    reals have a single zero, which carries the sign of [+0.0]. *)
Definition copysign (x y : R) : R :=
  if Rlt_dec y 0 then - Rabs x else Rabs x.

(** [std::atan2 (y, x)]: the angle in (-PI, PI] of the point (x, y). *)
Definition atan2 (y x : R) : R :=
  if Rlt_dec 0 x then atan (y / x)
  else if Rlt_dec x 0 then
         if Rle_dec 0 y then atan (y / x) + PI else atan (y / x) - PI
  else if Rlt_dec 0 y then PI / 2
  else if Rlt_dec y 0 then - (PI / 2)
  else 0.

(** [std::pow (x, y)] for a positive base [x]; its one call site,
    [CalculateKappa], reaches it with a base of at least 1e-8. *)
Definition pow (x y : R) : R := Rpower x y.

End cmath.

(** ** modules/planning/math/double.h *)

Module Double.

(** Modelled from the spec: [Double::Compare] is declared in
    modules/planning/math/double.h, whose implementation is not part of the
    sources at hand.  The spec describes its use in CalculateKappa as
    "returns 0 when its denominator magnitude < 1e-8": two numbers compare
    as equal (0) when they differ by less than [epsilon], and otherwise as
    greater (1) or smaller (-1). *)
Definition Compare (d1 d2 epsilon : R) : Z :=
  if Rlt_dec (Rabs (d1 - d2)) epsilon then 0%Z
  else if Rlt_dec d2 d1 then 1%Z
  else (-1)%Z.

End Double.

(** ** modules/common/math/math_utils.h *)

Module math.

(** Modelled from the spec: [common::math::NormalizeAngle] is declared in
    modules/common/math/math_utils.h, whose implementation is not part of the
    sources at hand.  The spec has headings "normalized to (-PI, PI]": the
    angle is moved by a whole number of turns into that interval.  The
    converter below takes the normalisation as a parameter; this definition
    is the instance used where a concrete one is needed. *)
Definition NormalizeAngle (angle : R) : R :=
  angle + 2 * IZR (Zfloor ((PI - angle) / (2 * PI))) * PI.

End math.

(** ** Data *)

(** [std::array<double, 3>], read at the indices 0, 1 and 2. *)
Record array3 : Type := mk_array3 { at0 : R; at1 : R; at2 : R }.

(** [Eigen::Vector2d], read at the indices 0 and 1. *)
Record Vector2d : Type := mk_Vector2d { v0 : R; v1 : R }.

(** The six values [frenet_to_cartesian] writes through its pointers. *)
Record CartesianState : Type := mk_CartesianState {
  ptr_x : R;
  ptr_y : R;
  ptr_theta : R;
  ptr_kappa : R;
  ptr_v : R;
  ptr_a : R
}.

(** [CHECK (cond)]: continue when [cond] holds, abort otherwise. *)
Definition CHECK {A : Type} {P : Prop} (cond : {P} + {~ P}) (k : option A)
  : option A :=
  if cond then k else None.

(** ** CartesianFrenetConverter *)

Module CartesianFrenetConverter.

Section Converter.

(** [common::math::NormalizeAngle]. *)
Variable NormalizeAngle : R -> R.

Definition cartesian_to_frenet
  (rs rx ry rtheta rkappa rdkappa x y v a theta kappa : R)
  : array3 * array3 :=
  let dx := x - rx in
  let dy := y - ry in
  let cos_theta_r := cos rtheta in
  let sin_theta_r := sin rtheta in
  let cross_rd_nd := cos_theta_r * dy - sin_theta_r * dx in
  let d0 := cmath.copysign (sqrt (dx * dx + dy * dy)) cross_rd_nd in
  let delta_theta := theta - rtheta in
  let tan_delta_theta := tan delta_theta in
  let cos_delta_theta := cos delta_theta in
  let one_minus_kappa_r_d := 1 - rkappa * d0 in
  let d1 := one_minus_kappa_r_d * tan_delta_theta in
  let kappa_r_d_prime := rdkappa * d0 + rkappa * d1 in
  let d2 :=
    - kappa_r_d_prime * tan_delta_theta +
    one_minus_kappa_r_d / cos_delta_theta / cos_delta_theta *
      (kappa * one_minus_kappa_r_d / cos_delta_theta - rkappa) in
  let s0 := rs in
  let s1 := v * cos_delta_theta / one_minus_kappa_r_d in
  let delta_theta_prime :=
    one_minus_kappa_r_d / cos_delta_theta * kappa - rkappa in
  let s2 :=
    (a * cos_delta_theta -
     s1 * s1 * (d1 * delta_theta_prime - kappa_r_d_prime)) /
    one_minus_kappa_r_d in
  (mk_array3 s0 s1 s2, mk_array3 d0 d1 d2).

Definition frenet_to_cartesian
  (rs rx ry rtheta rkappa rdkappa : R) (s_condition d_condition : array3)
  : option CartesianState :=
  CHECK (Rlt_dec (Rabs (rs - at0 s_condition)) 1.0e-6)
  (let cos_theta_r := cos rtheta in
   let sin_theta_r := sin rtheta in
   let x := rx - sin_theta_r * at0 d_condition in
   let y := ry + cos_theta_r * at0 d_condition in
   let one_minus_kappa_r_d := 1 - rkappa * at0 d_condition in
   let tan_delta_theta := at1 d_condition / one_minus_kappa_r_d in
   let delta_theta := cmath.atan2 (at1 d_condition) one_minus_kappa_r_d in
   let cos_delta_theta := cos delta_theta in
   let theta := NormalizeAngle (delta_theta + rtheta) in
   let kappa_r_d_prime :=
     rdkappa * at0 d_condition + rkappa * at1 d_condition in
   let kappa :=
     (((at2 d_condition + kappa_r_d_prime * tan_delta_theta) *
       cos_delta_theta * cos_delta_theta) /
      one_minus_kappa_r_d +
      rkappa) *
     cos_delta_theta / one_minus_kappa_r_d in
   let d_dot := at1 d_condition * at1 s_condition in
   let v :=
     sqrt (one_minus_kappa_r_d * one_minus_kappa_r_d *
           at1 s_condition * at1 s_condition +
           d_dot * d_dot) in
   let delta_theta_prime :=
     one_minus_kappa_r_d / cos_delta_theta * kappa - rkappa in
   let a :=
     at2 s_condition * one_minus_kappa_r_d / cos_delta_theta +
     at1 s_condition * at1 s_condition / cos_delta_theta *
       (at1 d_condition * delta_theta_prime - kappa_r_d_prime) in
   Some (mk_CartesianState x y theta kappa v a)).

Definition CalculateTheta (rtheta rkappa l dl : R) : R :=
  NormalizeAngle (rtheta + cmath.atan2 dl (1 - l * rkappa)).

Definition CalculateKappa (rkappa rdkappa l dl ddl : R) : R :=
  let denominator := dl * dl + (1 - l * rkappa) * (1 - l * rkappa) in
  if Z.eqb (Double.Compare denominator 0.0 1e-8) 0 then 0.0
  else
    let denominator := cmath.pow denominator 1.5 in
    let numerator :=
      rkappa + ddl - 2 * l * rkappa * rkappa -
      l * ddl * rkappa +
      l * l * rkappa * rkappa * rkappa +
      l * dl * rdkappa + 2 * dl * dl * rkappa in
    numerator / denominator.

Definition CalculateCartesianPoint (rtheta : R) (rpoint : Vector2d) (l : R)
  : Vector2d :=
  let x := v0 rpoint - l * sin rtheta in
  let y := v1 rpoint + l * cos rtheta in
  mk_Vector2d x y.

Definition CalculateLateralDerivative (rtheta theta l rkappa : R) : R :=
  (1 - rkappa * l) * tan (theta - rtheta).

Definition CalculateSecondOrderLateralDerivative
  (rtheta theta rkappa kappa rdkappa l : R) : R :=
  let dl := CalculateLateralDerivative rtheta theta l rkappa in
  let theta_diff := theta - rtheta in
  let cos_theta_diff := cos theta_diff in
  - (rdkappa * l + rkappa * dl) * tan (theta - rtheta) +
  (1 - rkappa * l) / (cos_theta_diff * cos_theta_diff) *
    (kappa * (1 - rkappa * l) / cos_theta_diff - rkappa).

End Converter.

End CartesianFrenetConverter.

(** ** Round trip *)

(** A Frenet state taken to Cartesian coordinates and back, over one
    reference sample. *)
Definition frenet_cartesian_frenet (NormalizeAngle : R -> R)
  (rs rx ry rtheta rkappa rdkappa : R) (s_condition d_condition : array3)
  : option (array3 * array3) :=
  match
    CartesianFrenetConverter.frenet_to_cartesian NormalizeAngle
      rs rx ry rtheta rkappa rdkappa s_condition d_condition
  with
  | Some c =>
      Some (CartesianFrenetConverter.cartesian_to_frenet
              rs rx ry rtheta rkappa rdkappa
              (ptr_x c) (ptr_y c) (ptr_v c) (ptr_a c)
              (ptr_theta c) (ptr_kappa c))
  | None => None
  end.


(** A normalisation moves an angle by a whole number of turns. *)
Definition whole_turns (NormalizeAngle : R -> R) : Prop :=
  forall angle, exists k : Z, NormalizeAngle angle = angle + 2 * IZR k * PI.

(** A Cartesian state taken to Frenet coordinates and back, over one
    reference sample. *)
Definition cartesian_frenet_cartesian (NormalizeAngle : R -> R)
  (rs rx ry rtheta rkappa rdkappa x y v a theta kappa : R)
  : option CartesianState :=
  let conditions :=
    CartesianFrenetConverter.cartesian_to_frenet
      rs rx ry rtheta rkappa rdkappa x y v a theta kappa in
  CartesianFrenetConverter.frenet_to_cartesian NormalizeAngle
    rs rx ry rtheta rkappa rdkappa (fst conditions) (snd conditions).

(** Two angles that differ by a whole number of turns. *)
Definition same_direction (alpha beta : R) : Prop :=
  exists k : Z, alpha = beta + 2 * IZR k * PI.

(** ** modules/planning/open_space/reeds_shepp_path_test.cc *)

Module reeds_shepp.

(** [Node3d], as far as the test reads it: GetX, GetY and GetPhi. *)
Record Node3d : Type := mk_Node3d { GetX : R; GetY : R; GetPhi : R }.

(** [ReedSheppPath], as far as the test reads it: the vectors x, y, phi. *)
Record ReedSheppPath : Type := mk_ReedSheppPath {
  x : list R;
  y : list R;
  phi : list R
}.

(** How a run of [check] ends: every assertion held; an assertion failed or
    [at] threw [std::out_of_range]; or [front] / [back] was called on an
    empty vector, which has no defined behaviour. *)
Inductive outcome : Type := passed | failed | undefined.

(** [v.front ()] and [v.back ()], followed by the rest of the run. *)
Definition front (v : list R) (k : R -> outcome) : outcome :=
  match v with
  | nil => undefined
  | cons a _ => k a
  end.

Definition back (v : list R) (k : R -> outcome) : outcome :=
  match v with
  | nil => undefined
  | cons a w => k (last w a)
  end.

(** [v.at (i)], followed by the rest of the run. *)
Definition at_ (v : list R) (i : nat) (k : R -> outcome) : outcome :=
  match nth_error v i with
  | Some a => k a
  | None => failed
  end.

(** [ASSERT_LT (a, b)] and [ASSERT_GT (n, m)] on a size, followed by the rest
    of the run. *)
Definition ASSERT_LT (a b : R) (k : outcome) : outcome :=
  if Rlt_dec a b then k else failed.

Definition ASSERT_GT (n m : nat) (k : outcome) : outcome :=
  if Nat.ltb m n then k else failed.

(** The [for] loop of [check], at index [i] with [todo] iterations left. *)
Fixpoint check_intervals (step_size : R) (optimal_path : ReedSheppPath)
  (i todo : nat) : outcome :=
  match todo with
  | O => passed
  | S todo' =>
      let gold_interval :=
        sqrt (step_size * step_size + step_size * step_size) in
      at_ (x optimal_path) i (fun xi =>
      at_ (x optimal_path) (i - 1) (fun xp =>
      at_ (y optimal_path) i (fun yi =>
      at_ (y optimal_path) (i - 1) (fun yp =>
      let interval :=
        sqrt ((xi - xp) * (xi - xp) + (yi - yp) * (yi - yp)) in
      ASSERT_LT interval gold_interval
        (check_intervals step_size optimal_path (S i) todo')))))
  end.

(** [reeds_shepp::check]; [step_size] is
    open_space_conf_.warm_start_config ().step_size (). *)
Definition check (step_size : R) (start_node end_node : Node3d)
  (optimal_path : ReedSheppPath) : outcome :=
  front (x optimal_path) (fun x_front =>
  ASSERT_LT (GetX start_node - x_front) 0.01 (
  front (y optimal_path) (fun y_front =>
  ASSERT_LT (GetY start_node - y_front) 0.01 (
  front (phi optimal_path) (fun phi_front =>
  ASSERT_LT (GetPhi start_node - phi_front) 0.01 (
  back (x optimal_path) (fun x_back =>
  ASSERT_LT (GetX end_node - x_back) 0.01 (
  back (y optimal_path) (fun y_back =>
  ASSERT_LT (GetY end_node - y_back) 0.01 (
  back (phi optimal_path) (fun phi_back =>
  ASSERT_LT (GetPhi end_node - phi_back) 0.01 (
  ASSERT_GT (length (x optimal_path)) 1 (
  check_intervals step_size optimal_path 1
    (length (x optimal_path) - 1)))))))))))))).

End reeds_shepp.

(** ** The converter in binary64 arithmetic *)

(** The same source functions with [double] read as IEEE 754 binary64, the
    primitive floats of the Standard Library, whose [+ - * /] and [sqrt]
    round as the hardware does.  This reading is used where the real-number
    one and the code part ways: where two computations that denote the same
    real number round differently, and where rounding error is amplified
    past a stated tolerance.  The functions of <cmath> and [NormalizeAngle]
    are parameters of the converter. *)

Module binary64.

Import Floats.

#[local] Set Warnings "-inexact-float".

Local Open Scope float_scope.

(** [std::copysign (x, y)], by the sign bit of [y]. *)
Definition copysign (x y : float) : float :=
  if get_sign y then - abs x else abs x.

Record array3 : Type := mk_array3 { at0 : float; at1 : float; at2 : float }.

Record CartesianState : Type := mk_CartesianState {
  ptr_x : float;
  ptr_y : float;
  ptr_theta : float;
  ptr_kappa : float;
  ptr_v : float;
  ptr_a : float
}.

(** [CHECK (cond)]: continue when [cond] holds, abort otherwise. *)
Definition CHECK {A : Type} (cond : bool) (k : option A) : option A :=
  if cond then k else None.

Section Converter.

(** [std::sin], [std::cos], [std::tan], [std::atan2] and
    [common::math::NormalizeAngle]. *)
Variables sin cos tan : float -> float.
Variable atan2 : float -> float -> float.
Variable NormalizeAngle : float -> float.

Definition cartesian_to_frenet
  (rs rx ry rtheta rkappa rdkappa x y v a theta kappa : float)
  : array3 * array3 :=
  let dx := x - rx in
  let dy := y - ry in
  let cos_theta_r := cos rtheta in
  let sin_theta_r := sin rtheta in
  let cross_rd_nd := cos_theta_r * dy - sin_theta_r * dx in
  let d0 := copysign (sqrt (dx * dx + dy * dy)) cross_rd_nd in
  let delta_theta := theta - rtheta in
  let tan_delta_theta := tan delta_theta in
  let cos_delta_theta := cos delta_theta in
  let one_minus_kappa_r_d := 1 - rkappa * d0 in
  let d1 := one_minus_kappa_r_d * tan_delta_theta in
  let kappa_r_d_prime := rdkappa * d0 + rkappa * d1 in
  let d2 :=
    - kappa_r_d_prime * tan_delta_theta +
    one_minus_kappa_r_d / cos_delta_theta / cos_delta_theta *
      (kappa * one_minus_kappa_r_d / cos_delta_theta - rkappa) in
  let s0 := rs in
  let s1 := v * cos_delta_theta / one_minus_kappa_r_d in
  let delta_theta_prime :=
    one_minus_kappa_r_d / cos_delta_theta * kappa - rkappa in
  let s2 :=
    (a * cos_delta_theta -
     s1 * s1 * (d1 * delta_theta_prime - kappa_r_d_prime)) /
    one_minus_kappa_r_d in
  (mk_array3 s0 s1 s2, mk_array3 d0 d1 d2).

Definition frenet_to_cartesian
  (rs rx ry rtheta rkappa rdkappa : float) (s_condition d_condition : array3)
  : option CartesianState :=
  CHECK (abs (rs - at0 s_condition) <? 1.0e-6)
  (let cos_theta_r := cos rtheta in
   let sin_theta_r := sin rtheta in
   let x := rx - sin_theta_r * at0 d_condition in
   let y := ry + cos_theta_r * at0 d_condition in
   let one_minus_kappa_r_d := 1 - rkappa * at0 d_condition in
   let tan_delta_theta := at1 d_condition / one_minus_kappa_r_d in
   let delta_theta := atan2 (at1 d_condition) one_minus_kappa_r_d in
   let cos_delta_theta := cos delta_theta in
   let theta := NormalizeAngle (delta_theta + rtheta) in
   let kappa_r_d_prime :=
     rdkappa * at0 d_condition + rkappa * at1 d_condition in
   let kappa :=
     (((at2 d_condition + kappa_r_d_prime * tan_delta_theta) *
       cos_delta_theta * cos_delta_theta) /
      one_minus_kappa_r_d +
      rkappa) *
     cos_delta_theta / one_minus_kappa_r_d in
   let d_dot := at1 d_condition * at1 s_condition in
   let v :=
     sqrt (one_minus_kappa_r_d * one_minus_kappa_r_d *
           at1 s_condition * at1 s_condition +
           d_dot * d_dot) in
   let delta_theta_prime :=
     one_minus_kappa_r_d / cos_delta_theta * kappa - rkappa in
   let a :=
     at2 s_condition * one_minus_kappa_r_d / cos_delta_theta +
     at1 s_condition * at1 s_condition / cos_delta_theta *
       (at1 d_condition * delta_theta_prime - kappa_r_d_prime) in
   Some (mk_CartesianState x y theta kappa v a)).

Definition CalculateLateralDerivative (rtheta theta l rkappa : float)
  : float :=
  (1 - rkappa * l) * tan (theta - rtheta).

Definition CalculateSecondOrderLateralDerivative
  (rtheta theta rkappa kappa rdkappa l : float) : float :=
  let dl := CalculateLateralDerivative rtheta theta l rkappa in
  let theta_diff := theta - rtheta in
  let cos_theta_diff := cos theta_diff in
  - (rdkappa * l + rkappa * dl) * tan (theta - rtheta) +
  (1 - rkappa * l) / (cos_theta_diff * cos_theta_diff) *
    (kappa * (1 - rkappa * l) / cos_theta_diff - rkappa).

(** A Frenet state taken to Cartesian coordinates and back, over one
    reference sample. *)
Definition frenet_cartesian_frenet
  (rs rx ry rtheta rkappa rdkappa : float) (s_condition d_condition : array3)
  : option (array3 * array3) :=
  match
    frenet_to_cartesian rs rx ry rtheta rkappa rdkappa s_condition d_condition
  with
  | Some c =>
      Some (cartesian_to_frenet rs rx ry rtheta rkappa rdkappa
              (ptr_x c) (ptr_y c) (ptr_v c) (ptr_a c)
              (ptr_theta c) (ptr_kappa c))
  | None => None
  end.

End Converter.

(** The C library is not part of the sources.  For the closed instances
    below it is sampled at the arguments they reach: the values ISO C fixes
    exactly (sin and tan of a zero are that zero, cos 0 is 1, atan2 of a
    zero and a positive number is that zero), and the correctly rounded
    cos 0.5 and tan 0.5, which glibc returns.  Everywhere else the sample
    is NaN. *)
Definition sampled_sin (x : float) : float :=
  if x =? 0 then x else nan.

Definition sampled_cos (x : float) : float :=
  if x =? 0 then 1
  else if x =? 0.5 then 0x1.c1528065b7d5p-1
  else nan.

Definition sampled_tan (x : float) : float :=
  if x =? 0 then x
  else if x =? 0.5 then 0x1.17b4f5bf3474ap-1
  else nan.



End binary64.

(** * Properties *)

(** ** <cmath> facts *)

Lemma copysign_nonneg (x y : R) : 0 <= y -> cmath.copysign x y = Rabs x.
Proof.
  intros Hy. unfold cmath.copysign.
  destruct (Rlt_dec y 0) as [Hlt | _]; [lra | reflexivity].
Qed.

Lemma copysign_neg (x y : R) : y < 0 -> cmath.copysign x y = - Rabs x.
Proof.
  intros Hy. unfold cmath.copysign.
  destruct (Rlt_dec y 0) as [_ | Hge]; [reflexivity | lra].
Qed.

Lemma copysign_abs_self (x : R) : cmath.copysign (Rabs x) x = x.
Proof.
  unfold cmath.copysign. rewrite Rabs_Rabsolu.
  destruct (Rlt_dec x 0) as [Hlt | Hge].
  - rewrite (Rabs_left _ Hlt). lra.
  - apply Rabs_pos_eq. lra.
Qed.

Lemma Rabs_copysign (x y : R) : Rabs (cmath.copysign x y) = Rabs x.
Proof.
  unfold cmath.copysign.
  destruct (Rlt_dec y 0); [rewrite Rabs_Ropp |]; apply Rabs_Rabsolu.
Qed.

Lemma sqrt_square_abs (x : R) : sqrt (x * x) = Rabs x.
Proof. exact (sqrt_Rsqr_abs x). Qed.

(** Sine and cosine do not see whole turns, in either direction. *)
Lemma cos_turns (x : R) (k : Z) : cos (x + 2 * IZR k * PI) = cos x.
Proof.
  destruct (Z_le_gt_dec 0 k) as [Hk | Hk].
  - rewrite <- (Z2Nat.id k Hk), <- INR_IZR_INZ. apply cos_period.
  - rewrite <- (cos_period (x + 2 * IZR k * PI) (Z.to_nat (- k))).
    rewrite INR_IZR_INZ, Z2Nat.id, opp_IZR by lia.
    f_equal. ring.
Qed.

Lemma sin_turns (x : R) (k : Z) : sin (x + 2 * IZR k * PI) = sin x.
Proof.
  destruct (Z_le_gt_dec 0 k) as [Hk | Hk].
  - rewrite <- (Z2Nat.id k Hk), <- INR_IZR_INZ. apply sin_period.
  - rewrite <- (sin_period (x + 2 * IZR k * PI) (Z.to_nat (- k))).
    rewrite INR_IZR_INZ, Z2Nat.id, opp_IZR by lia.
    f_equal. ring.
Qed.

Lemma tan_turns (x : R) (k : Z) : tan (x + 2 * IZR k * PI) = tan x.
Proof. unfold tan. now rewrite sin_turns, cos_turns. Qed.

(** The direction [atan2 y x] points at (x, y): its cosine, scaled by the
    length of (x, y), is [x]. *)
Lemma hypot_scale (x y : R) :
  x <> 0 -> sqrt (x * x + y * y) = Rabs x * sqrt (1 + (y / x)²).
Proof.
  intros Hx.
  rewrite <- sqrt_square_abs, <- sqrt_mult_alt by nra.
  f_equal. unfold Rsqr. field. exact Hx.
Qed.

Lemma cos_atan_scaled (u : R) : cos (atan u) * sqrt (1 + u²) = 1.
Proof.
  rewrite cos_atan.
  assert (0 < sqrt (1 + u²)) by (apply sqrt_lt_R0; unfold Rsqr; nra).
  field. lra.
Qed.

Lemma cos_atan2_scaled (y x : R) :
  cos (cmath.atan2 y x) * sqrt (x * x + y * y) = x.
Proof.
  unfold cmath.atan2.
  destruct (Rlt_dec 0 x) as [Hpos | Hnpos].
  - rewrite hypot_scale, Rabs_pos_eq by lra.
    transitivity (x * (cos (atan (y / x)) * sqrt (1 + (y / x)²))); [ring |].
    rewrite cos_atan_scaled. ring.
  - destruct (Rlt_dec x 0) as [Hneg | Hnneg].
    + assert (Hc : forall t, (t = atan (y / x) + PI \/ t = atan (y / x) - PI) ->
                   cos t = - cos (atan (y / x))).
      { intros t [-> | ->].
        - apply neg_cos.
        - replace (atan (y / x) - PI) with (- (- atan (y / x) + PI)) by ring.
          rewrite cos_neg, neg_cos, cos_neg. reflexivity. }
      rewrite hypot_scale, (Rabs_left _ Hneg) by lra.
      destruct (Rle_dec 0 y);
        (rewrite (Hc _); [| auto];
         transitivity (x * (cos (atan (y / x)) * sqrt (1 + (y / x)²)));
         [ring | rewrite cos_atan_scaled; ring]).
    + assert (x = 0) by lra. subst x.
      replace (0 * 0 + y * y) with (y * y) by ring.
      destruct (Rlt_dec 0 y); [rewrite cos_PI2; ring |].
      destruct (Rlt_dec y 0); [rewrite cos_neg, cos_PI2; ring |].
      assert (y = 0) by lra. subst y.
      replace (0 * 0) with 0 by ring. rewrite sqrt_0. ring.
Qed.

Lemma hypot_pos (x y : R) : x <> 0 -> 0 < sqrt (x * x + y * y).
Proof. intros Hx. apply sqrt_lt_R0. nra. Qed.


Lemma tan_atan2 (y x : R) : x <> 0 -> tan (cmath.atan2 y x) = y / x.
Proof.
  intros Hx. unfold cmath.atan2.
  destruct (Rlt_dec 0 x) as [Hpos | Hnpos]; [apply tan_atan |].
  destruct (Rlt_dec x 0) as [Hneg | Hnneg]; [| lra].
  assert (Ht : forall t, tan (t + PI) = tan t).
  { intros t. unfold tan. rewrite neg_sin, neg_cos.
    unfold Rdiv. rewrite Rinv_opp. ring. }
  destruct (Rle_dec 0 y).
  - rewrite Ht. apply tan_atan.
  - rewrite <- (Ht (atan (y / x) - PI)).
    replace (atan (y / x) - PI + PI) with (atan (y / x)) by ring.
    apply tan_atan.
Qed.

(** ** The converter *)

Import CartesianFrenetConverter.

Lemma sin_cos_unit (t : R) : sin t * sin t + cos t * cos t = 1.
Proof. exact (sin2_cos2 t). Qed.

(** The speed formula of [frenet_to_cartesian] is the magnitude of the
    station rate times the length of (1 - kappa_r * d, d'). *)
Lemma speed_magnitude (m s1 d1 : R) :
  sqrt (m * m * s1 * s1 + d1 * s1 * (d1 * s1)) =
  Rabs s1 * sqrt (m * m + d1 * d1).
Proof.
  rewrite <- sqrt_square_abs, <- sqrt_mult_alt by nra.
  f_equal. ring.
Qed.

Lemma frenet_to_cartesian_checked (NormalizeAngle : R -> R)
  (rs rx ry rtheta rkappa rdkappa : R) (s d : array3) :
  Rabs (rs - at0 s) < 1e-6 ->
  frenet_to_cartesian NormalizeAngle rs rx ry rtheta rkappa rdkappa s d =
  let m := 1 - rkappa * at0 d in
  let delta := cmath.atan2 (at1 d) m in
  let kp := rdkappa * at0 d + rkappa * at1 d in
  let kappa :=
    ((at2 d + kp * (at1 d / m)) * cos delta * cos delta / m + rkappa) *
    cos delta / m in
  Some (mk_CartesianState
          (rx - sin rtheta * at0 d)
          (ry + cos rtheta * at0 d)
          (NormalizeAngle (delta + rtheta))
          kappa
          (sqrt (m * m * at1 s * at1 s + at1 d * at1 s * (at1 d * at1 s)))
          (at2 s * m / cos delta +
           at1 s * at1 s / cos delta *
             (at1 d * (m / cos delta * kappa - rkappa) - kp))).
Proof.
  intros Hpre. unfold frenet_to_cartesian, CHECK.
  destruct (Rlt_dec (Rabs (rs - at0 s)) 1.0e-6) as [_ | Hn];
    [reflexivity | exfalso; apply Hn; lra].
Qed.

Lemma frenet_to_cartesian_aborts (NormalizeAngle : R -> R)
  (rs rx ry rtheta rkappa rdkappa : R) (s d : array3) :
  ~ Rabs (rs - at0 s) < 1e-6 ->
  frenet_to_cartesian NormalizeAngle rs rx ry rtheta rkappa rdkappa s d = None.
Proof.
  intros Hpre. unfold frenet_to_cartesian, CHECK.
  destruct (Rlt_dec (Rabs (rs - at0 s)) 1.0e-6) as [Hlt | _];
    [exfalso; apply Hpre; lra | reflexivity].
Qed.

(** [cartesian_to_frenet] at a point that lies at the offset [d0] on the
    normal of the reference sample, in terms of the tangent [t] and the
    cosine [c] of the heading difference. *)
Lemma cartesian_to_frenet_on_normal
  (rs rx ry rtheta rkappa rdkappa v a theta kappa d0 t c : R) :
  tan (theta - rtheta) = t ->
  cos (theta - rtheta) = c ->
  cartesian_to_frenet rs rx ry rtheta rkappa rdkappa
    (rx - sin rtheta * d0) (ry + cos rtheta * d0) v a theta kappa =
  let m := 1 - rkappa * d0 in
  let d1 := m * t in
  let kp := rdkappa * d0 + rkappa * d1 in
  let s1 := v * c / m in
  (mk_array3 rs s1
     ((a * c - s1 * s1 * (d1 * (m / c * kappa - rkappa) - kp)) / m),
   mk_array3 d0 d1
     (- kp * t + m / c / c * (kappa * m / c - rkappa))).
Proof.
  intros Ht Hc. unfold cartesian_to_frenet. rewrite Ht, Hc.
  set (dx := rx - sin rtheta * d0 - rx).
  set (dy := ry + cos rtheta * d0 - ry).
  assert (Hd : cmath.copysign (sqrt (dx * dx + dy * dy))
                 (cos rtheta * dy - sin rtheta * dx) = d0).
  { replace (dx * dx + dy * dy)
      with (d0 * d0 * (sin rtheta * sin rtheta + cos rtheta * cos rtheta))
      by (unfold dx, dy; ring).
    replace (cos rtheta * dy - sin rtheta * dx)
      with (d0 * (sin rtheta * sin rtheta + cos rtheta * cos rtheta))
      by (unfold dx, dy; ring).
    rewrite sin_cos_unit, !Rmult_1_r, sqrt_square_abs.
    apply copysign_abs_self. }
  cbv zeta. rewrite Hd. reflexivity.
Qed.

Lemma Rabs_square (x : R) : Rabs x * Rabs x = x * x.
Proof. rewrite <- Rabs_mult. apply Rabs_pos_eq. nra. Qed.


Lemma NormalizeAngle_whole_turns : whole_turns math.NormalizeAngle.
Proof.
  intros angle. exists (Zfloor ((PI - angle) / (2 * PI))). reflexivity.
Qed.

Lemma Rabs_diff_self (tol x : R) : 0 < tol -> Rabs (x - x) < tol.
Proof. intros Htol. apply Rabs_def1; lra. Qed.

Section ConverterClaims.

Variable NormalizeAngle : R -> R.

(** C2: [frenet_to_cartesian] aborts, returning no state, when the reference
    station differs from the state's station by 1e-6 or more, and produces a
    state when the two differ by less than 1e-6. *)
Theorem frenet_to_cartesian_station_check
  (rs rx ry rtheta rkappa rdkappa : R) (s d : array3) :
  (1e-6 <= Rabs (rs - at0 s) ->
   frenet_to_cartesian NormalizeAngle rs rx ry rtheta rkappa rdkappa s d = None) /\
  (Rabs (rs - at0 s) < 1e-6 ->
   exists c : CartesianState,
     frenet_to_cartesian NormalizeAngle rs rx ry rtheta rkappa rdkappa s d = Some c).
Proof.
  split; intros H.
  - apply frenet_to_cartesian_aborts. lra.
  - rewrite frenet_to_cartesian_checked by exact H. eexists. reflexivity.
Qed.

(** C6: when the station precondition holds, [frenet_to_cartesian] returns
    the position x = rx - sin(rtheta) * d0, y = ry + cos(rtheta) * d0 and the
    heading NormalizeAngle (rtheta + atan2 (d1, 1 - rkappa * d0)). *)
Theorem frenet_to_cartesian_pose
  (rs rx ry rtheta rkappa rdkappa : R) (s d : array3) :
  Rabs (rs - at0 s) < 1e-6 ->
  exists c : CartesianState,
    frenet_to_cartesian NormalizeAngle rs rx ry rtheta rkappa rdkappa s d = Some c /\
    ptr_x c = rx - sin rtheta * at0 d /\
    ptr_y c = ry + cos rtheta * at0 d /\
    ptr_theta c =
      NormalizeAngle (rtheta + cmath.atan2 (at1 d) (1 - rkappa * at0 d)).
Proof.
  intros Hpre. rewrite frenet_to_cartesian_checked by exact Hpre.
  eexists. split; [reflexivity |].
  cbn [ptr_x ptr_y ptr_theta]. repeat split.
  f_equal. apply Rplus_comm.
Qed.

(** C9: the helpers [CalculateTheta] and [CalculateCartesianPoint], called
    with l = d_condition[0], dl = d_condition[1] and rpoint = (rx, ry),
    return the heading and the position [frenet_to_cartesian] computes. *)
Theorem helpers_agree_with_frenet_to_cartesian
  (rs rx ry rtheta rkappa rdkappa : R) (s d : array3) :
  Rabs (rs - at0 s) < 1e-6 ->
  exists c : CartesianState,
    frenet_to_cartesian NormalizeAngle rs rx ry rtheta rkappa rdkappa s d = Some c /\
    CalculateTheta NormalizeAngle rtheta rkappa (at0 d) (at1 d) = ptr_theta c /\
    CalculateCartesianPoint rtheta (mk_Vector2d rx ry) (at0 d) =
      mk_Vector2d (ptr_x c) (ptr_y c).
Proof.
  intros Hpre. rewrite frenet_to_cartesian_checked by exact Hpre.
  eexists. split; [reflexivity |].
  cbn [ptr_x ptr_y ptr_theta].
  unfold CalculateTheta, CalculateCartesianPoint.
  cbn [v0 v1]. split.
  - f_equal. rewrite (Rmult_comm (at0 d) rkappa). apply Rplus_comm.
  - f_equal; f_equal; apply Rmult_comm.
Qed.

(** C10: when the station precondition holds, the velocity returned by
    [frenet_to_cartesian] is non-negative, and it is the same for the
    station rate s1 and for -s1: the direction of travel is not reflected in
    it. *)
Theorem frenet_to_cartesian_speed_unsigned
  (rs rx ry rtheta rkappa rdkappa : R) (s d : array3) :
  Rabs (rs - at0 s) < 1e-6 ->
  exists c c' : CartesianState,
    frenet_to_cartesian NormalizeAngle rs rx ry rtheta rkappa rdkappa s d = Some c /\
    frenet_to_cartesian NormalizeAngle rs rx ry rtheta rkappa rdkappa
      (mk_array3 (at0 s) (- at1 s) (at2 s)) d = Some c' /\
    0 <= ptr_v c /\
    ptr_v c' = ptr_v c.
Proof.
  intros Hpre.
  rewrite !frenet_to_cartesian_checked by exact Hpre.
  do 2 eexists. split; [reflexivity |]. split; [reflexivity |].
  cbn [ptr_v at1]. split; [apply sqrt_pos |].
  f_equal. ring.
Qed.

End ConverterClaims.

(** C3: with denominator = dl^2 + (1 - l * rkappa)^2, [CalculateKappa]
    returns 0 when the magnitude of the denominator is below 1e-8, and
    otherwise the closed-form numerator divided by the denominator raised to
    the power 1.5; in that second case the denominator is positive and the
    divisor is not zero. *)
Theorem CalculateKappa_guarded (rkappa rdkappa l dl ddl : R) :
  let denominator := dl * dl + (1 - l * rkappa) * (1 - l * rkappa) in
  let numerator :=
    rkappa + ddl - 2 * l * rkappa * rkappa - l * ddl * rkappa +
    l * l * rkappa * rkappa * rkappa + l * dl * rdkappa +
    2 * dl * dl * rkappa in
  (Rabs denominator < 1e-8 ->
   CalculateKappa rkappa rdkappa l dl ddl = 0) /\
  (1e-8 <= Rabs denominator ->
   CalculateKappa rkappa rdkappa l dl ddl =
     numerator / cmath.pow denominator 1.5 /\
   0 < denominator /\
   cmath.pow denominator 1.5 <> 0).
Proof.
  intros denominator numerator.
  assert (Hnn : 0 <= denominator).
  { apply Rplus_le_le_0_compat;
      [exact (Rle_0_sqr dl) | exact (Rle_0_sqr (1 - l * rkappa))]. }
  unfold CalculateKappa, Double.Compare. fold denominator numerator.
  clearbody denominator numerator.
  replace (denominator - 0.0) with denominator by lra.
  split; intros H.
  - destruct (Rlt_dec (Rabs denominator) 1e-8) as [_ | Hn]; [| lra].
    cbn [Z.eqb]. lra.
  - destruct (Rlt_dec (Rabs denominator) 1e-8) as [Hlt | _]; [lra |].
    rewrite (Rabs_pos_eq _ Hnn) in H.
    destruct (Rlt_dec 0.0 denominator) as [_ | Hn]; [| lra].
    cbn [Z.eqb]. split; [reflexivity |]. split; [lra |].
    unfold cmath.pow, Rpower. pose proof (exp_pos (1.5 * ln denominator)). lra.
Qed.

(** C4, amended: the lateral offset d_condition[0] of [cartesian_to_frenet]
    is the distance from the reference point (rx, ry) to the point (x, y),
    taken positive when cross = cos(rtheta) * (y - ry) - sin(rtheta) * (x - rx)
    is positive or zero and negative when cross is negative.  Its square is
    cross^2 + along^2, with along = cos(rtheta) * (x - rx) +
    sin(rtheta) * (y - ry) the component of the point along the reference
    heading; so it is the signed perpendicular distance, cross, exactly
    when along = 0, that is when the reference point is the foot of the
    perpendicular from the point. *)
Theorem cartesian_to_frenet_lateral_offset
  (rs rx ry rtheta rkappa rdkappa x y v a theta kappa : R) :
  let d0 :=
    at0 (snd (cartesian_to_frenet rs rx ry rtheta rkappa rdkappa
                x y v a theta kappa)) in
  let distance := sqrt ((x - rx) * (x - rx) + (y - ry) * (y - ry)) in
  let cross := cos rtheta * (y - ry) - sin rtheta * (x - rx) in
  let along := cos rtheta * (x - rx) + sin rtheta * (y - ry) in
  Rabs d0 = distance /\
  (0 < cross -> d0 = distance) /\
  (cross = 0 -> d0 = distance) /\
  (cross < 0 -> d0 = - distance) /\
  d0 * d0 = cross * cross + along * along /\
  (d0 = cross <-> along = 0).
Proof.
  intros d0 distance cross along.
  assert (Hd : d0 = cmath.copysign distance cross) by reflexivity.
  assert (Hpos : Rabs distance = distance)
    by (apply Rabs_pos_eq, sqrt_pos).
  assert (Hsq : distance * distance = cross * cross + along * along).
  { unfold distance.
    rewrite sqrt_sqrt by (apply Rplus_le_le_0_compat; apply Rle_0_sqr).
    pose proof (sin_cos_unit rtheta) as Hu. unfold cross, along.
    transitivity
      (((x - rx) * (x - rx) + (y - ry) * (y - ry)) *
       (sin rtheta * sin rtheta + cos rtheta * cos rtheta));
      [rewrite Hu; ring | ring]. }
  assert (Habs : Rabs d0 = distance)
    by (rewrite Hd, Rabs_copysign; exact Hpos).
  assert (Hd2 : d0 * d0 = cross * cross + along * along)
    by (rewrite <- Hsq, <- Habs; symmetry; apply Rabs_square).
  split; [exact Habs |].
  split; [intros Hc; rewrite Hd, copysign_nonneg by lra; exact Hpos |].
  split; [intros Hc; rewrite Hd, copysign_nonneg by lra; exact Hpos |].
  split; [intros Hc; rewrite Hd, copysign_neg by exact Hc; now rewrite Hpos |].
  split; [exact Hd2 |].
  split.
  - intros Heq. rewrite Heq in Hd2. nra.
  - intros Hal.
    assert (Hdist : distance = Rabs cross).
    { rewrite <- Hpos, <- !sqrt_square_abs. f_equal.
      rewrite Hsq, Hal. ring. }
    rewrite Hd, Hdist. apply copysign_abs_self.
Qed.

(** C7: the first-order lateral derivative d_condition[1] computed by
    [cartesian_to_frenet] is (1 - rkappa * d0) * tan (theta - rtheta), with
    d0 the lateral offset d_condition[0], and [CalculateLateralDerivative]
    computes the same formula of its offset argument. *)
Theorem lateral_derivative_formula
  (rs rx ry rtheta rkappa rdkappa x y v a theta kappa : R) :
  let d_condition :=
    snd (cartesian_to_frenet rs rx ry rtheta rkappa rdkappa
           x y v a theta kappa) in
  at1 d_condition = (1 - rkappa * at0 d_condition) * tan (theta - rtheta) /\
  (forall l : R,
     CalculateLateralDerivative rtheta theta l rkappa =
     (1 - rkappa * l) * tan (theta - rtheta)) /\
  at1 d_condition =
    CalculateLateralDerivative rtheta theta (at0 d_condition) rkappa.
Proof. repeat split. Qed.

Lemma second_order_inline_form (rkappa rdkappa kappa l t c : R) :
  - (rdkappa * l + rkappa * ((1 - rkappa * l) * t)) * t +
  (1 - rkappa * l) / c / c * (kappa * (1 - rkappa * l) / c - rkappa) =
  - (rdkappa * l + rkappa * ((1 - rkappa * l) * t)) * t +
  (1 - rkappa * l) / (c * c) * (kappa * (1 - rkappa * l) / c - rkappa).
Proof. unfold Rdiv. rewrite Rinv_mult. ring. Qed.

(** Over the reals [CalculateSecondOrderLateralDerivative] is the
    d_condition[2] expression of [cartesian_to_frenet]: at the offset
    d_condition[0] of any call, and, for any offset l, at the call whose
    point lies at the offset l on the normal of the reference sample.  In
    both, d_condition[1] is [CalculateLateralDerivative] of the same
    arguments. *)
Lemma second_order_real_agreement
  (rs rx ry rtheta rkappa rdkappa x y v a theta kappa : R) :
  (let d_condition :=
     snd (cartesian_to_frenet rs rx ry rtheta rkappa rdkappa
            x y v a theta kappa) in
   at1 d_condition =
     CalculateLateralDerivative rtheta theta (at0 d_condition) rkappa /\
   at2 d_condition =
     CalculateSecondOrderLateralDerivative
       rtheta theta rkappa kappa rdkappa (at0 d_condition)) /\
  (forall l : R,
     let d_condition :=
       snd (cartesian_to_frenet rs rx ry rtheta rkappa rdkappa
              (rx - sin rtheta * l) (ry + cos rtheta * l)
              v a theta kappa) in
     at0 d_condition = l /\
     at1 d_condition = CalculateLateralDerivative rtheta theta l rkappa /\
     at2 d_condition =
       CalculateSecondOrderLateralDerivative
         rtheta theta rkappa kappa rdkappa l).
Proof.
  split.
  - split; [reflexivity |].
    unfold CalculateSecondOrderLateralDerivative, CalculateLateralDerivative.
    cbv zeta. cbn [snd at0 at2 cartesian_to_frenet].
    apply second_order_inline_form.
  - intros l.
    rewrite (cartesian_to_frenet_on_normal _ _ _ _ _ _ _ _ _ _ _
               (tan (theta - rtheta)) (cos (theta - rtheta)))
      by reflexivity.
    cbv zeta. cbn [snd at0 at1 at2].
    split; [reflexivity |]. split; [reflexivity |].
    unfold CalculateSecondOrderLateralDerivative, CalculateLateralDerivative.
    cbv zeta. apply second_order_inline_form.
Qed.

(** ** Instances *)


Lemma frenet_to_cartesian_station_check_witness :
  frenet_to_cartesian math.NormalizeAngle 1 0 0 0 0 0
    (mk_array3 0 0 0) (mk_array3 0 0 0) = None /\
  exists c : CartesianState,
    frenet_to_cartesian math.NormalizeAngle 0 0 0 0 0 0
      (mk_array3 0 0 0) (mk_array3 0 0 0) = Some c.
Proof.
  split.
  - apply (proj1 (frenet_to_cartesian_station_check math.NormalizeAngle
                    1 0 0 0 0 0 (mk_array3 0 0 0) (mk_array3 0 0 0))).
    cbn [at0]. rewrite Rminus_0_r, Rabs_R1. lra.
  - apply (proj2 (frenet_to_cartesian_station_check math.NormalizeAngle
                    0 0 0 0 0 0 (mk_array3 0 0 0) (mk_array3 0 0 0))).
    cbn [at0]. apply Rabs_diff_self. lra.
Defined.

Lemma CalculateKappa_guarded_witness :
  CalculateKappa 1 0 1 0 0 = 0 /\
  CalculateKappa 0 0 0 0 2 =
    (0 + 2 - 2 * 0 * 0 * 0 - 0 * 2 * 0 + 0 * 0 * 0 * 0 * 0 + 0 * 0 * 0 +
     2 * 0 * 0 * 0) / cmath.pow (0 * 0 + (1 - 0 * 0) * (1 - 0 * 0)) 1.5.
Proof.
  split.
  - apply (proj1 (CalculateKappa_guarded 1 0 1 0 0)).
    replace (0 * 0 + (1 - 1 * 1) * (1 - 1 * 1)) with 0 by ring.
    rewrite Rabs_R0. lra.
  - apply (proj2 (CalculateKappa_guarded 0 0 0 0 2)).
    replace (0 * 0 + (1 - 0 * 0) * (1 - 0 * 0)) with 1 by ring.
    rewrite Rabs_R1. lra.
Defined.

Lemma cartesian_to_frenet_lateral_offset_witness :
  at0 (snd (cartesian_to_frenet 0 0 0 0 0 0 0 1 0 0 0 0)) =
    sqrt ((0 - 0) * (0 - 0) + (1 - 0) * (1 - 0)) /\
  at0 (snd (cartesian_to_frenet 0 0 0 0 0 0 1 0 0 0 0 0)) =
    sqrt ((1 - 0) * (1 - 0) + (0 - 0) * (0 - 0)) /\
  at0 (snd (cartesian_to_frenet 0 0 0 0 0 0 0 (-1) 0 0 0 0)) =
    - sqrt ((0 - 0) * (0 - 0) + (-1 - 0) * (-1 - 0)) /\
  at0 (snd (cartesian_to_frenet 0 0 0 0 0 0 0 1 0 0 0 0)) =
    cos 0 * (1 - 0) - sin 0 * (0 - 0).
Proof.
  pose proof (cartesian_to_frenet_lateral_offset 0 0 0 0 0 0 0 1 0 0 0 0)
    as (_ & Hleft & _ & _ & _ & Hnormal).
  pose proof (cartesian_to_frenet_lateral_offset 0 0 0 0 0 0 1 0 0 0 0 0)
    as (_ & _ & Hahead & _).
  pose proof (cartesian_to_frenet_lateral_offset 0 0 0 0 0 0 0 (-1) 0 0 0 0)
    as (_ & _ & _ & Hright & _).
  rewrite cos_0, sin_0 in Hleft, Hahead, Hright, Hnormal.
  split; [apply Hleft; lra |].
  split; [apply Hahead; lra |].
  split; [apply Hright; lra |].
  rewrite cos_0, sin_0. apply (proj2 Hnormal). lra.
Defined.

(** The point (3, 4) seen from the origin along the x axis: 5 away, 4 off
    the axis.  The point (3, 0), on the axis: 3 away, 0 off it. *)
Lemma cartesian_to_frenet_lateral_offset_counterexample :
  at0 (snd (cartesian_to_frenet 0 0 0 0 0 0 3 4 0 0 0 0)) = 5 /\
  cos 0 * (4 - 0) - sin 0 * (3 - 0) = 4 /\
  at0 (snd (cartesian_to_frenet 0 0 0 0 0 0 3 4 0 0 0 0)) <>
    cos 0 * (4 - 0) - sin 0 * (3 - 0) /\
  at0 (snd (cartesian_to_frenet 0 0 0 0 0 0 3 0 0 0 0 0)) = 3 /\
  cos 0 * (0 - 0) - sin 0 * (3 - 0) = 0.
Proof.
  assert (H34 : at0 (snd (cartesian_to_frenet 0 0 0 0 0 0 3 4 0 0 0 0)) = 5).
  { cbn [cartesian_to_frenet snd at0]. rewrite cos_0, sin_0.
    rewrite copysign_nonneg by lra.
    replace ((3 - 0) * (3 - 0) + (4 - 0) * (4 - 0)) with (5 * 5) by ring.
    rewrite sqrt_square by lra. apply Rabs_pos_eq. lra. }
  assert (H30 : at0 (snd (cartesian_to_frenet 0 0 0 0 0 0 3 0 0 0 0 0)) = 3).
  { cbn [cartesian_to_frenet snd at0]. rewrite cos_0, sin_0.
    rewrite copysign_nonneg by lra.
    replace ((3 - 0) * (3 - 0) + (0 - 0) * (0 - 0)) with (3 * 3) by ring.
    rewrite sqrt_square by lra. apply Rabs_pos_eq. lra. }
  split; [exact H34 |].
  split; [rewrite cos_0, sin_0; ring |].
  split; [rewrite H34, cos_0, sin_0; lra |].
  split; [exact H30 |].
  rewrite cos_0, sin_0. ring.
Qed.

Lemma frenet_to_cartesian_pose_witness :
  exists c : CartesianState,
    frenet_to_cartesian math.NormalizeAngle 1 2 3 0 (1 / 10) 0
      (mk_array3 1 2 0) (mk_array3 1 0 0) = Some c /\
    ptr_x c = 2 - sin 0 * 1 /\
    ptr_y c = 3 + cos 0 * 1 /\
    ptr_theta c =
      math.NormalizeAngle (0 + cmath.atan2 0 (1 - 1 / 10 * 1)).
Proof.
  apply (frenet_to_cartesian_pose math.NormalizeAngle 1 2 3 0 (1 / 10) 0
           (mk_array3 1 2 0) (mk_array3 1 0 0)).
  cbn [at0]. apply Rabs_diff_self. lra.
Defined.

Lemma helpers_agree_with_frenet_to_cartesian_witness :
  exists c : CartesianState,
    frenet_to_cartesian math.NormalizeAngle 1 2 3 0 (1 / 10) 0
      (mk_array3 1 2 0) (mk_array3 1 0 0) = Some c /\
    CalculateTheta math.NormalizeAngle 0 (1 / 10) 1 0 = ptr_theta c /\
    CalculateCartesianPoint 0 (mk_Vector2d 2 3) 1 =
      mk_Vector2d (ptr_x c) (ptr_y c).
Proof.
  apply (helpers_agree_with_frenet_to_cartesian math.NormalizeAngle
           1 2 3 0 (1 / 10) 0 (mk_array3 1 2 0) (mk_array3 1 0 0)).
  cbn [at0]. apply Rabs_diff_self. lra.
Defined.

Lemma frenet_to_cartesian_speed_unsigned_witness :
  exists c c' : CartesianState,
    frenet_to_cartesian math.NormalizeAngle 1 2 3 0 (1 / 10) 0
      (mk_array3 1 2 0) (mk_array3 1 0 0) = Some c /\
    frenet_to_cartesian math.NormalizeAngle 1 2 3 0 (1 / 10) 0
      (mk_array3 1 (- 2) 0) (mk_array3 1 0 0) = Some c' /\
    0 <= ptr_v c /\
    ptr_v c' = ptr_v c.
Proof.
  apply (frenet_to_cartesian_speed_unsigned math.NormalizeAngle
           1 2 3 0 (1 / 10) 0 (mk_array3 1 2 0) (mk_array3 1 0 0)).
  cbn [at0]. apply Rabs_diff_self. lra.
Defined.

(** * Further properties of the converter *)

(** ** Geometry of the returned position *)

(** X1: when the station precondition holds, the position returned by
    [frenet_to_cartesian] lies on the normal of the reference sample, at the
    signed distance d_condition[0] from the reference point: its component
    along the reference heading is zero and its component across is d0. *)
Theorem frenet_to_cartesian_on_normal (NormalizeAngle : R -> R)
  (rs rx ry rtheta rkappa rdkappa : R) (s d : array3) :
  Rabs (rs - at0 s) < 1e-6 ->
  exists c : CartesianState,
    frenet_to_cartesian NormalizeAngle rs rx ry rtheta rkappa rdkappa s d
    = Some c /\
    cos rtheta * (ptr_x c - rx) + sin rtheta * (ptr_y c - ry) = 0 /\
    cos rtheta * (ptr_y c - ry) - sin rtheta * (ptr_x c - rx) = at0 d /\
    sqrt ((ptr_x c - rx) * (ptr_x c - rx) + (ptr_y c - ry) * (ptr_y c - ry))
    = Rabs (at0 d).
Proof.
  intros Hpre. rewrite frenet_to_cartesian_checked by exact Hpre.
  eexists. split; [reflexivity |]. cbn [ptr_x ptr_y].
  pose proof (sin_cos_unit rtheta) as Hu.
  split; [ring |]. split.
  - transitivity
      (at0 d * (sin rtheta * sin rtheta + cos rtheta * cos rtheta));
      [ring | rewrite Hu; ring].
  - rewrite <- sqrt_square_abs. f_equal.
    transitivity
      (at0 d * at0 d * (sin rtheta * sin rtheta + cos rtheta * cos rtheta));
      [ring | rewrite Hu; ring].
Qed.

(** X2: when the station precondition holds, the velocity returned by
    [frenet_to_cartesian] is the magnitude of the station rate s1 times the
    length of the vector (1 - rkappa * d0, d1). *)
Theorem frenet_to_cartesian_speed (NormalizeAngle : R -> R)
  (rs rx ry rtheta rkappa rdkappa : R) (s d : array3) :
  Rabs (rs - at0 s) < 1e-6 ->
  exists c : CartesianState,
    frenet_to_cartesian NormalizeAngle rs rx ry rtheta rkappa rdkappa s d
    = Some c /\
    ptr_v c =
      Rabs (at1 s) *
      sqrt ((1 - rkappa * at0 d) * (1 - rkappa * at0 d) + at1 d * at1 d).
Proof.
  intros Hpre. rewrite frenet_to_cartesian_checked by exact Hpre.
  eexists. split; [reflexivity |]. cbn [ptr_v]. apply speed_magnitude.
Qed.

(** X3: on the reference line (d_condition = (0, 0, 0)) and with the station
    precondition, [frenet_to_cartesian] returns the reference point, the
    normalised reference heading, the reference curvature, the magnitude of
    the station rate as velocity and the station acceleration as
    acceleration. *)
Theorem frenet_to_cartesian_on_reference (NormalizeAngle : R -> R)
  (rs rx ry rtheta rkappa rdkappa : R) (s : array3) :
  Rabs (rs - at0 s) < 1e-6 ->
  frenet_to_cartesian NormalizeAngle rs rx ry rtheta rkappa rdkappa
    s (mk_array3 0 0 0)
  = Some (mk_CartesianState rx ry (NormalizeAngle rtheta) rkappa
            (Rabs (at1 s)) (at2 s)).
Proof.
  intros Hpre. rewrite frenet_to_cartesian_checked by exact Hpre.
  cbv zeta. cbn [at0 at1 at2].
  assert (Hm : 1 - rkappa * 0 = 1) by ring. rewrite !Hm.
  assert (Hdelta : cmath.atan2 0 1 = 0).
  { unfold cmath.atan2. destruct (Rlt_dec 0 1) as [_ | Hn]; [| lra].
    replace (0 / 1) with 0 by field. apply atan_0. }
  rewrite Hdelta, cos_0.
  f_equal. f_equal.
  - ring.
  - ring.
  - f_equal. ring.
  - field.
  - rewrite <- sqrt_square_abs. f_equal. ring.
  - field.
Qed.

(** X4: at the reference point itself and with the heading of the reference
    sample, [cartesian_to_frenet] returns the station (rs, v, a) and the
    lateral state (0, 0, kappa - rkappa). *)
Theorem cartesian_to_frenet_at_reference
  (rs rx ry rtheta rkappa rdkappa v a kappa : R) :
  cartesian_to_frenet rs rx ry rtheta rkappa rdkappa rx ry v a rtheta kappa
  = (mk_array3 rs v a, mk_array3 0 0 (kappa - rkappa)).
Proof.
  assert (Hx : rx = rx - sin rtheta * 0) by ring.
  assert (Hy : ry = ry + cos rtheta * 0) by ring.
  rewrite Hx at 2. rewrite Hy at 2.
  rewrite (cartesian_to_frenet_on_normal _ _ _ _ _ _ _ _ _ _ _ 0 1).
  - cbv zeta. f_equal; f_equal; field.
  - replace (rtheta - rtheta) with 0 by ring. apply tan_0.
  - replace (rtheta - rtheta) with 0 by ring. apply cos_0.
Qed.

(** ** Cartesian -> Frenet -> Cartesian *)

Lemma cartesian_frenet_cartesian_unfold (NormalizeAngle : R -> R)
  (rs rx ry rtheta rkappa rdkappa x y v a theta kappa : R) :
  exists s d : array3,
    cartesian_to_frenet rs rx ry rtheta rkappa rdkappa x y v a theta kappa
    = (s, d) /\
    at0 s = rs /\
    cartesian_frenet_cartesian NormalizeAngle rs rx ry rtheta rkappa rdkappa
      x y v a theta kappa
    = frenet_to_cartesian NormalizeAngle rs rx ry rtheta rkappa rdkappa s d.
Proof.
  unfold cartesian_frenet_cartesian.
  destruct (cartesian_to_frenet rs rx ry rtheta rkappa rdkappa
              x y v a theta kappa) as [s d] eqn:E.
  exists s, d. split; [reflexivity |]. split; [| reflexivity].
  unfold cartesian_to_frenet in E. injection E as <- _. reflexivity.
Qed.

(** X6: [frenet_to_cartesian] never aborts on the output of
    [cartesian_to_frenet] over the same reference sample, whatever the
    input: the station it is handed is the reference station.  The point it
    returns is the input point turned about the reference point onto the
    normal of the reference sample: same distance, no component along the
    reference heading. *)
Theorem cartesian_frenet_cartesian_defined (NormalizeAngle : R -> R)
  (rs rx ry rtheta rkappa rdkappa x y v a theta kappa : R) :
  exists c : CartesianState,
    cartesian_frenet_cartesian NormalizeAngle rs rx ry rtheta rkappa rdkappa
      x y v a theta kappa = Some c /\
    cos rtheta * (ptr_x c - rx) + sin rtheta * (ptr_y c - ry) = 0 /\
    sqrt ((ptr_x c - rx) * (ptr_x c - rx) + (ptr_y c - ry) * (ptr_y c - ry))
    = sqrt ((x - rx) * (x - rx) + (y - ry) * (y - ry)).
Proof.
  destruct (cartesian_frenet_cartesian_unfold NormalizeAngle
              rs rx ry rtheta rkappa rdkappa x y v a theta kappa)
    as (s & d & E & Hs & ->).
  assert (Hpre : Rabs (rs - at0 s) < 1e-6)
    by (rewrite Hs; apply Rabs_diff_self; lra).
  rewrite frenet_to_cartesian_checked by exact Hpre.
  eexists. split; [reflexivity |]. cbn [ptr_x ptr_y].
  split; [ring |].
  transitivity (Rabs (at0 d)).
  { rewrite <- sqrt_square_abs. f_equal.
    transitivity
      (at0 d * at0 d * (sin rtheta * sin rtheta + cos rtheta * cos rtheta));
      [ring | rewrite sin_cos_unit; ring]. }
  assert (Hd : at0 d =
               cmath.copysign
                 (sqrt ((x - rx) * (x - rx) + (y - ry) * (y - ry)))
                 (cos rtheta * (y - ry) - sin rtheta * (x - rx))).
  { unfold cartesian_to_frenet in E. injection E as _ <-. reflexivity. }
  rewrite Hd, Rabs_copysign. apply Rabs_pos_eq, sqrt_pos.
Qed.

(** The offset of a point on the normal of the reference sample is its
    component across the reference heading, and the point is the reference
    point moved by that offset along the normal. *)
Lemma offset_on_normal (rx ry rtheta x y : R) :
  cos rtheta * (x - rx) + sin rtheta * (y - ry) = 0 ->
  let l := cos rtheta * (y - ry) - sin rtheta * (x - rx) in
  x = rx - sin rtheta * l /\ y = ry + cos rtheta * l.
Proof.
  intros Hdot l. pose proof (sin_cos_unit rtheta) as Hu.
  set (dx := x - rx) in *. set (dy := y - ry) in *.
  assert (Hc : cos rtheta * dx = - (sin rtheta * dy)) by lra.
  assert (Hs : sin rtheta * dy = - (cos rtheta * dx)) by lra.
  assert (Hx : dx = - sin rtheta * l).
  { transitivity (sin rtheta * sin rtheta * dx + cos rtheta * (cos rtheta * dx)).
    - rewrite <- (Rmult_1_r dx) at 1. rewrite <- Hu. ring.
    - rewrite Hc. unfold l. ring. }
  assert (Hy : dy = cos rtheta * l).
  { transitivity (sin rtheta * (sin rtheta * dy) + cos rtheta * cos rtheta * dy).
    - rewrite <- (Rmult_1_r dy) at 1. rewrite <- Hu. ring.
    - rewrite Hs. unfold l. ring. }
  unfold dx in Hx. unfold dy in Hy. split; lra.
Qed.

Lemma atan2_of_tangent (m delta : R) :
  0 < m -> - (PI / 2) < delta < PI / 2 ->
  cmath.atan2 (m * tan delta) m = delta.
Proof.
  intros Hm Hdelta. unfold cmath.atan2.
  destruct (Rlt_dec 0 m) as [_ | Hn]; [| contradiction].
  replace (m * tan delta / m) with (tan delta) by (field; lra).
  apply atan_tan. exact Hdelta.
Qed.

(** X7: Cartesian -> Frenet -> Cartesian.  When the reference point is the
    foot of the perpendicular from the point (the point has no component
    along the reference heading), the point is on the near side of the
    centre of curvature (rkappa times its offset is below 1), the heading
    differs from the reference heading by less than a quarter turn and the
    velocity is not negative, [cartesian_to_frenet] followed by
    [frenet_to_cartesian] over the same reference sample returns the
    position, curvature, velocity and acceleration it was given, and a
    heading that differs from the given one by whole turns. *)
Theorem cartesian_round_trip (NormalizeAngle : R -> R)
  (rs rx ry rtheta rkappa rdkappa x y v a theta kappa : R) :
  whole_turns NormalizeAngle ->
  cos rtheta * (x - rx) + sin rtheta * (y - ry) = 0 ->
  rkappa * (cos rtheta * (y - ry) - sin rtheta * (x - rx)) < 1 ->
  - (PI / 2) < theta - rtheta < PI / 2 ->
  0 <= v ->
  exists c : CartesianState,
    cartesian_frenet_cartesian NormalizeAngle rs rx ry rtheta rkappa rdkappa
      x y v a theta kappa = Some c /\
    ptr_x c = x /\ ptr_y c = y /\
    same_direction (ptr_theta c) theta /\
    ptr_kappa c = kappa /\ ptr_v c = v /\ ptr_a c = a.
Proof.
  intros Hturns Hdot Hk Hdelta Hv.
  destruct (offset_on_normal rx ry rtheta x y Hdot) as [Hx Hy].
  set (l := cos rtheta * (y - ry) - sin rtheta * (x - rx)) in *.
  clearbody l.
  unfold cartesian_frenet_cartesian.
  assert (E : cartesian_to_frenet rs rx ry rtheta rkappa rdkappa
                x y v a theta kappa =
              cartesian_to_frenet rs rx ry rtheta rkappa rdkappa
                (rx - sin rtheta * l) (ry + cos rtheta * l) v a theta kappa)
    by (rewrite <- Hx, <- Hy; reflexivity).
  rewrite E.
  rewrite (cartesian_to_frenet_on_normal _ _ _ _ _ _ _ _ _ _ _
             (tan (theta - rtheta)) (cos (theta - rtheta)))
    by reflexivity.
  cbv zeta. cbn [fst snd].
  rewrite frenet_to_cartesian_checked
    by (cbn [at0]; apply Rabs_diff_self; lra).
  cbv zeta. cbn [at0 at1 at2].
  set (delta := theta - rtheta) in *.
  set (m := 1 - rkappa * l).
  assert (Hm : 0 < m) by (unfold m; lra).
  assert (Hc : 0 < cos delta) by (apply cos_gt_0; lra).
  rewrite (atan2_of_tangent m delta Hm Hdelta).
  eexists. split; [reflexivity |].
  cbn [ptr_x ptr_y ptr_theta ptr_kappa ptr_v ptr_a].
  assert (Hkappa :
    ((- (rdkappa * l + rkappa * (m * tan delta)) * tan delta +
      m / cos delta / cos delta * (kappa * m / cos delta - rkappa) +
      (rdkappa * l + rkappa * (m * tan delta)) * (m * tan delta / m)) *
     cos delta * cos delta / m + rkappa) * cos delta / m = kappa)
    by (field; lra).
  rewrite Hkappa.
  split; [symmetry; exact Hx |]. split; [symmetry; exact Hy |].
  split.
  { destruct (Hturns (delta + rtheta)) as [k Hn]. exists k.
    rewrite Hn. unfold delta. ring. }
  split; [reflexivity |]. split.
  - transitivity (sqrt (v * v)); [| apply sqrt_square; exact Hv].
    f_equal.
    transitivity
      (v * v * (sin delta * sin delta + cos delta * cos delta));
      [| rewrite sin_cos_unit; ring].
    unfold tan. field. lra.
  - field. lra.
Qed.

(** ** CalculateKappa *)

Lemma Rpower_three_halves (u : R) : 0 < u -> Rpower u 1.5 = u * sqrt u.
Proof.
  intros Hu. replace 1.5 with (1 + / 2) by lra.
  rewrite Rpower_plus, Rpower_1, Rpower_sqrt by exact Hu. reflexivity.
Qed.

(** Past its guard, [CalculateKappa] is its closed form, with the power 1.5
    written as denominator * sqrt (denominator). *)
Lemma CalculateKappa_closed_form (rkappa rdkappa l dl ddl : R) :
  let denominator := dl * dl + (1 - l * rkappa) * (1 - l * rkappa) in
  1e-8 <= denominator ->
  CalculateKappa rkappa rdkappa l dl ddl =
  (rkappa + ddl - 2 * l * rkappa * rkappa - l * ddl * rkappa +
   l * l * rkappa * rkappa * rkappa + l * dl * rdkappa +
   2 * dl * dl * rkappa) / (denominator * sqrt denominator).
Proof.
  intros denominator Hden.
  unfold CalculateKappa, Double.Compare. fold denominator.
  clearbody denominator.
  replace (denominator - 0.0) with denominator by lra.
  rewrite Rabs_pos_eq by lra.
  destruct (Rlt_dec denominator 1e-8) as [Hlt | _]; [lra |].
  destruct (Rlt_dec 0.0 denominator) as [_ | Hn]; [| lra].
  cbn [Z.eqb]. unfold cmath.pow.
  rewrite Rpower_three_halves by lra. reflexivity.
Qed.

(** X8: when the station precondition holds, rkappa * d0 is not 1 and the
    guard of [CalculateKappa] is passed (d1^2 + (1 - d0 * rkappa)^2 is at
    least 1e-8), the curvature returned by [frenet_to_cartesian] is the one
    [CalculateKappa] computes from l = d0, dl = d1 and ddl = d2. *)
Theorem CalculateKappa_agrees_with_frenet_to_cartesian
  (NormalizeAngle : R -> R)
  (rs rx ry rtheta rkappa rdkappa : R) (s d : array3) :
  Rabs (rs - at0 s) < 1e-6 ->
  rkappa * at0 d <> 1 ->
  1e-8 <= at1 d * at1 d + (1 - at0 d * rkappa) * (1 - at0 d * rkappa) ->
  exists c : CartesianState,
    frenet_to_cartesian NormalizeAngle rs rx ry rtheta rkappa rdkappa s d
    = Some c /\
    ptr_kappa c = CalculateKappa rkappa rdkappa (at0 d) (at1 d) (at2 d).
Proof.
  intros Hpre Hk Hden.
  rewrite frenet_to_cartesian_checked by exact Hpre.
  eexists. split; [reflexivity |]. cbn [ptr_kappa].
  rewrite CalculateKappa_closed_form by exact Hden.
  destruct d as [l dl ddl]. cbn [at0 at1 at2] in *.
  replace (1 - l * rkappa) with (1 - rkappa * l) by ring.
  set (m := 1 - rkappa * l) in *.
  assert (Hm : m <> 0) by (unfold m; lra).
  pose proof (cos_atan2_scaled dl m) as Hc.
  pose proof (hypot_pos m dl Hm) as Hpos.
  replace (dl * dl + m * m) with (m * m + dl * dl) by ring.
  set (h := sqrt (m * m + dl * dl)) in *.
  assert (Hh : h * h = m * m + dl * dl)
    by (apply sqrt_sqrt; nra).
  assert (Hcos : cos (cmath.atan2 dl m) = m / h)
    by (apply Rmult_eq_reg_r with h; [rewrite Hc; field; lra | lra]).
  rewrite Hcos, <- Hh.
  transitivity
    ((ddl * m + (rdkappa * l + rkappa * dl) * dl + rkappa * (h * h)) /
     (h * h * h)); [field; lra |].
  f_equal. rewrite Hh. unfold m. ring.
Qed.

(** X9: [CalculateKappa] passes its guard, and so returns its closed form,
    whenever the state is away from the singularity by 1e-4 or more in
    either coordinate: |1 - l * rkappa| >= 1e-4 or |dl| >= 1e-4. *)
Theorem CalculateKappa_away_from_singularity (rkappa rdkappa l dl ddl : R) :
  1e-4 <= Rabs (1 - l * rkappa) \/ 1e-4 <= Rabs dl ->
  let denominator := dl * dl + (1 - l * rkappa) * (1 - l * rkappa) in
  1e-8 <= denominator /\
  CalculateKappa rkappa rdkappa l dl ddl =
  (rkappa + ddl - 2 * l * rkappa * rkappa - l * ddl * rkappa +
   l * l * rkappa * rkappa * rkappa + l * dl * rdkappa +
   2 * dl * dl * rkappa) / (denominator * sqrt denominator).
Proof.
  intros Haway denominator.
  assert (Hden : 1e-8 <= denominator).
  { unfold denominator.
    rewrite <- (Rabs_square dl), <- (Rabs_square (1 - l * rkappa)).
    pose proof (Rabs_pos dl). pose proof (Rabs_pos (1 - l * rkappa)).
    destruct Haway; nra. }
  split; [exact Hden |].
  apply CalculateKappa_closed_form. exact Hden.
Qed.

(** X10: the curvature helpers invert each other.  For a reference sample
    with 1 - rkappa * l at least 1e-4 and a heading within a quarter turn of
    the reference heading, [CalculateKappa] applied to the lateral
    derivatives that [CalculateLateralDerivative] and
    [CalculateSecondOrderLateralDerivative] compute for a curvature kappa
    returns kappa. *)
Theorem CalculateKappa_of_lateral_derivatives
  (rtheta theta rkappa kappa rdkappa l : R) :
  1e-4 <= 1 - rkappa * l ->
  - (PI / 2) < theta - rtheta < PI / 2 ->
  CalculateKappa rkappa rdkappa l
    (CalculateLateralDerivative rtheta theta l rkappa)
    (CalculateSecondOrderLateralDerivative
       rtheta theta rkappa kappa rdkappa l)
  = kappa.
Proof.
  intros Hm Hdelta.
  unfold CalculateSecondOrderLateralDerivative, CalculateLateralDerivative.
  cbv zeta.
  set (delta := theta - rtheta) in *.
  assert (Hc : 0 < cos delta) by (apply cos_gt_0; lra).
  pose proof (sin_cos_unit delta) as Hu.
  set (c := cos delta) in *.
  set (m := 1 - rkappa * l) in *.
  assert (Ht : tan delta = sin delta / c) by reflexivity.
  rewrite Ht. set (sn := sin delta) in *. clearbody sn c. clear Ht.
  assert (Hq : m * (sn / c) * (m * (sn / c)) + (1 - l * rkappa) * (1 - l * rkappa)
               = (m / c) * (m / c)).
  { replace (1 - l * rkappa) with m by (unfold m; ring).
    transitivity (m * m * (sn * sn + c * c) / (c * c));
      [field; lra | rewrite Hu; field; lra]. }
  assert (Hmc : 1e-4 <= m / c).
  { assert (c <= 1) by nra.
    apply Rle_trans with (1 := Hm).
    apply Rmult_le_reg_r with c; [exact Hc |].
    replace (m / c * c) with m by (field; lra). nra. }
  rewrite CalculateKappa_closed_form; rewrite Hq; [| nra].
  rewrite sqrt_square by lra.
  match goal with
  | |- ?N / _ = _ =>
      assert (HN : N = kappa * (m / c * (m / c) * (m / c)) +
                       rkappa * m * m / (c * c) * (sn * sn + c * c - 1))
        by (unfold m; field; lra);
      rewrite HN
  end.
  rewrite Hu. field. split; lra.
Qed.

(** ** The helpers invert each other *)

(** X11: the heading [CalculateTheta] computes from a lateral derivative dl
    gives that derivative back through [CalculateLateralDerivative], for any
    offset l with l * rkappa different from 1. *)
Theorem lateral_derivative_of_CalculateTheta (NormalizeAngle : R -> R)
  (rtheta rkappa l dl : R) :
  whole_turns NormalizeAngle ->
  l * rkappa <> 1 ->
  CalculateLateralDerivative rtheta
    (CalculateTheta NormalizeAngle rtheta rkappa l dl) l rkappa = dl.
Proof.
  intros Hturns Hk.
  unfold CalculateLateralDerivative, CalculateTheta.
  set (m := 1 - l * rkappa). assert (Hm : m <> 0) by (unfold m; lra).
  destruct (Hturns (rtheta + cmath.atan2 dl m)) as [k ->].
  replace (rtheta + cmath.atan2 dl m + 2 * IZR k * PI - rtheta)
    with (cmath.atan2 dl m + 2 * IZR k * PI) by ring.
  rewrite tan_turns, tan_atan2 by exact Hm.
  replace (1 - rkappa * l) with m by (unfold m; ring).
  field. exact Hm.
Qed.

(** X12: the other way round, for an offset on the near side of the centre
    of curvature (rkappa * l below 1) and a heading within a quarter turn
    of the reference heading, [CalculateTheta] applied to the derivative
    [CalculateLateralDerivative] computes returns that heading up to whole
    turns. *)
Theorem CalculateTheta_of_lateral_derivative (NormalizeAngle : R -> R)
  (rtheta theta rkappa l : R) :
  whole_turns NormalizeAngle ->
  rkappa * l < 1 ->
  - (PI / 2) < theta - rtheta < PI / 2 ->
  same_direction
    (CalculateTheta NormalizeAngle rtheta rkappa l
       (CalculateLateralDerivative rtheta theta l rkappa))
    theta.
Proof.
  intros Hturns Hk Hdelta.
  unfold CalculateLateralDerivative, CalculateTheta.
  replace (1 - l * rkappa) with (1 - rkappa * l) by ring.
  rewrite atan2_of_tangent by (lra || exact Hdelta).
  destruct (Hturns (rtheta + (theta - rtheta))) as [k Hn].
  exists k. rewrite Hn. ring.
Qed.

(** X13: the point [CalculateCartesianPoint] places at the offset l from a
    reference point has the lateral offset l in [cartesian_to_frenet], for
    any l of either sign. *)
Theorem lateral_offset_of_CalculateCartesianPoint
  (rs rx ry rtheta rkappa rdkappa l v a theta kappa : R) :
  let point := CalculateCartesianPoint rtheta (mk_Vector2d rx ry) l in
  at0 (snd (cartesian_to_frenet rs rx ry rtheta rkappa rdkappa
              (v0 point) (v1 point) v a theta kappa)) = l.
Proof.
  intros point. unfold point, CalculateCartesianPoint. cbn [v0 v1].
  rewrite (Rmult_comm l (sin rtheta)), (Rmult_comm l (cos rtheta)).
  rewrite (cartesian_to_frenet_on_normal _ _ _ _ _ _ _ _ _ _ _
             (tan (theta - rtheta)) (cos (theta - rtheta)))
    by reflexivity.
  reflexivity.
Qed.

(** ** Headings count modulo whole turns *)

(** X14: [cartesian_to_frenet] returns the same Frenet state when the
    heading or the reference heading is given with any number of whole
    turns added. *)
Theorem cartesian_to_frenet_whole_turns
  (rs rx ry rtheta rkappa rdkappa x y v a theta kappa : R) (j k : Z) :
  cartesian_to_frenet rs rx ry (rtheta + 2 * IZR j * PI) rkappa rdkappa
    x y v a (theta + 2 * IZR k * PI) kappa
  = cartesian_to_frenet rs rx ry rtheta rkappa rdkappa
      x y v a theta kappa.
Proof.
  unfold cartesian_to_frenet.
  replace (theta + 2 * IZR k * PI - (rtheta + 2 * IZR j * PI))
    with (theta - rtheta + 2 * IZR (k - j) * PI)
    by (rewrite minus_IZR; ring).
  rewrite !tan_turns, !cos_turns, !sin_turns. reflexivity.
Qed.

(** * The test oracle [reeds_shepp::check] *)

Import reeds_shepp.

Lemma ASSERT_LT_passed (a b : R) (k : outcome) :
  ASSERT_LT a b k = passed -> a < b /\ k = passed.
Proof.
  unfold ASSERT_LT. destruct (Rlt_dec a b); [auto | discriminate].
Qed.

Lemma at_passed (v : list R) (i : nat) (k : R -> outcome) :
  at_ v i k = passed -> exists a, nth_error v i = Some a /\ k a = passed.
Proof.
  unfold at_. destruct (nth_error v i) as [a |]; [eauto | discriminate].
Qed.

Lemma front_passed (v : list R) (k : R -> outcome) :
  front v k = passed -> v <> nil /\ k (nth 0 v 0) = passed.
Proof.
  destruct v as [| a w]; cbn; [discriminate |].
  intros H. split; [discriminate | exact H].
Qed.

Lemma back_passed (v : list R) (k : R -> outcome) :
  back v k = passed -> v <> nil /\ k (last v 0) = passed.
Proof.
  destruct v as [| a w]; [discriminate |].
  unfold back. intros H. split; [discriminate |].
  replace (last (a :: w) 0) with (last w a); [exact H |].
  clear H. generalize 0. revert a.
  induction w as [| b w IH]; intros a d; [reflexivity |].
  change (last (a :: b :: w) d) with (last (b :: w) d).
  rewrite <- (IH b d). symmetry. apply (IH b a).
Qed.

Lemma gold_interval_value (step_size : R) :
  sqrt (step_size * step_size + step_size * step_size)
  = sqrt 2 * Rabs step_size.
Proof.
  rewrite <- sqrt_square_abs, <- sqrt_mult_alt by lra.
  f_equal. ring.
Qed.

(** The spacing between the samples [i - 1] and [i] of a path. *)
Lemma check_intervals_passed (step_size : R) (optimal_path : ReedSheppPath)
  (todo i : nat) :
  check_intervals step_size optimal_path i todo = passed ->
  forall n : nat, (i <= n < i + todo)%nat ->
    (n < length (y optimal_path))%nat /\
    sqrt ((nth n (x optimal_path) 0 - nth (n - 1) (x optimal_path) 0) *
          (nth n (x optimal_path) 0 - nth (n - 1) (x optimal_path) 0) +
          (nth n (y optimal_path) 0 - nth (n - 1) (y optimal_path) 0) *
          (nth n (y optimal_path) 0 - nth (n - 1) (y optimal_path) 0))
    < sqrt 2 * Rabs step_size.
Proof.
  revert i. induction todo as [| todo IH]; intros i Hrun n Hn; [lia |].
  cbn [check_intervals] in Hrun.
  apply at_passed in Hrun. destruct Hrun as (xi & Hxi & Hrun).
  apply at_passed in Hrun. destruct Hrun as (xp & Hxp & Hrun).
  apply at_passed in Hrun. destruct Hrun as (yi & Hyi & Hrun).
  apply at_passed in Hrun. destruct Hrun as (yp & Hyp & Hrun).
  apply ASSERT_LT_passed in Hrun. destruct Hrun as [Hlt Hrun].
  destruct (Nat.eq_dec n i) as [-> | Hne].
  - split; [apply nth_error_Some; congruence |].
    rewrite (nth_error_nth _ _ 0 Hxi), (nth_error_nth _ _ 0 Hxp),
            (nth_error_nth _ _ 0 Hyi), (nth_error_nth _ _ 0 Hyp).
    rewrite <- gold_interval_value. exact Hlt.
  - apply (IH (S i) Hrun). lia.
Qed.

(** X15: what a passing run of [check] establishes.  The path has more than
    one sample and at least as many y as x coordinates; every two
    consecutive samples are closer than sqrt(2) * |step_size|; and the
    start and end poses exceed the first and last sample by less than 0.01
    in x, y and heading.  The endpoint tests are one-sided: they bound node
    minus sample from above only. *)
Theorem check_passed (step_size : R) (start_node end_node : Node3d)
  (optimal_path : ReedSheppPath) :
  check step_size start_node end_node optimal_path = passed ->
  (1 < length (x optimal_path))%nat /\
  (length (x optimal_path) <= length (y optimal_path))%nat /\
  phi optimal_path <> nil /\
  (forall n : nat, (1 <= n < length (x optimal_path))%nat ->
     sqrt ((nth n (x optimal_path) 0 - nth (n - 1) (x optimal_path) 0) *
           (nth n (x optimal_path) 0 - nth (n - 1) (x optimal_path) 0) +
           (nth n (y optimal_path) 0 - nth (n - 1) (y optimal_path) 0) *
           (nth n (y optimal_path) 0 - nth (n - 1) (y optimal_path) 0))
     < sqrt 2 * Rabs step_size) /\
  GetX start_node - nth 0 (x optimal_path) 0 < 0.01 /\
  GetY start_node - nth 0 (y optimal_path) 0 < 0.01 /\
  GetPhi start_node - nth 0 (phi optimal_path) 0 < 0.01 /\
  GetX end_node - last (x optimal_path) 0 < 0.01 /\
  GetY end_node - last (y optimal_path) 0 < 0.01 /\
  GetPhi end_node - last (phi optimal_path) 0 < 0.01.
Proof.
  unfold check. intros H.
  apply front_passed in H. destruct H as [_ H].
  apply ASSERT_LT_passed in H. destruct H as [Hx0 H].
  apply front_passed in H. destruct H as [_ H].
  apply ASSERT_LT_passed in H. destruct H as [Hy0 H].
  apply front_passed in H. destruct H as [Hphi H].
  apply ASSERT_LT_passed in H. destruct H as [Hphi0 H].
  apply back_passed in H. destruct H as [_ H].
  apply ASSERT_LT_passed in H. destruct H as [Hx1 H].
  apply back_passed in H. destruct H as [_ H].
  apply ASSERT_LT_passed in H. destruct H as [Hy1 H].
  apply back_passed in H. destruct H as [_ H].
  apply ASSERT_LT_passed in H. destruct H as [Hphi1 H].
  unfold ASSERT_GT in H.
  destruct (Nat.ltb_spec 1 (length (x optimal_path))) as [Hsize | _];
    [| discriminate].
  pose proof (check_intervals_passed _ _ _ _ H) as Hloop.
  split; [exact Hsize |]. split.
  { destruct (Hloop (length (x optimal_path) - 1)%nat) as [Hy _]; lia. }
  split; [exact Hphi |]. split.
  { intros n Hn. apply Hloop. lia. }
  repeat split; assumption.
Qed.

Lemma ASSERT_LT_weaken (a a' b : R) (k k' : outcome) :
  a' <= a -> (k = passed -> k' = passed) ->
  ASSERT_LT a b k = passed -> ASSERT_LT a' b k' = passed.
Proof.
  intros Ha Hk H. apply ASSERT_LT_passed in H. destruct H as [Hlt H].
  unfold ASSERT_LT. destruct (Rlt_dec a' b) as [_ | Hn]; [auto | lra].
Qed.

(** X16: the endpoint tests of [check] have no lower side.  A path that
    passes for a start and an end node also passes for any nodes whose
    x, y and heading are smaller, however far below the path's first and
    last samples they lie. *)
Theorem check_one_sided (step_size : R)
  (start_node end_node start_node' end_node' : Node3d)
  (optimal_path : ReedSheppPath) :
  check step_size start_node end_node optimal_path = passed ->
  GetX start_node' <= GetX start_node ->
  GetY start_node' <= GetY start_node ->
  GetPhi start_node' <= GetPhi start_node ->
  GetX end_node' <= GetX end_node ->
  GetY end_node' <= GetY end_node ->
  GetPhi end_node' <= GetPhi end_node ->
  check step_size start_node' end_node' optimal_path = passed.
Proof.
  intros H Hsx Hsy Hsp Hex Hey Hep. revert H. unfold check.
  destruct optimal_path as [xs ys phis]. cbn [x y phi].
  destruct xs as [| x0 xs]; [discriminate |].
  destruct ys as [| y0 ys];
    [cbn [front]; intros H; apply ASSERT_LT_passed in H;
     destruct H as [_ H]; discriminate |].
  destruct phis as [| p0 phis];
    [cbn [front]; intros H; apply ASSERT_LT_passed in H;
     destruct H as [_ H]; apply ASSERT_LT_passed in H;
     destruct H as [_ H]; discriminate |].
  cbn [front back].
  repeat (apply ASSERT_LT_weaken; [lra |]).
  exact (fun H => H).
Qed.

(** ** Instances of the further properties *)

Lemma quarter_turn_around_zero : - (PI / 2) < 0 - 0 < PI / 2.
Proof. pose proof PI_RGT_0. lra. Qed.

Lemma frenet_to_cartesian_on_normal_witness :
  exists c : CartesianState,
    frenet_to_cartesian math.NormalizeAngle 1 2 3 0 (1 / 10) 0
      (mk_array3 1 2 0) (mk_array3 (-1) 0 0) = Some c /\
    cos 0 * (ptr_x c - 2) + sin 0 * (ptr_y c - 3) = 0 /\
    cos 0 * (ptr_y c - 3) - sin 0 * (ptr_x c - 2) = -1 /\
    sqrt ((ptr_x c - 2) * (ptr_x c - 2) + (ptr_y c - 3) * (ptr_y c - 3))
    = Rabs (-1).
Proof.
  apply (frenet_to_cartesian_on_normal math.NormalizeAngle
           1 2 3 0 (1 / 10) 0 (mk_array3 1 2 0) (mk_array3 (-1) 0 0)).
  cbn [at0]. apply Rabs_diff_self. lra.
Defined.

Lemma frenet_to_cartesian_speed_witness :
  exists c : CartesianState,
    frenet_to_cartesian math.NormalizeAngle 1 2 3 0 (1 / 10) 0
      (mk_array3 1 (-2) 0) (mk_array3 1 1 0) = Some c /\
    ptr_v c = Rabs (-2) * sqrt ((1 - 1 / 10 * 1) * (1 - 1 / 10 * 1) + 1 * 1).
Proof.
  apply (frenet_to_cartesian_speed math.NormalizeAngle
           1 2 3 0 (1 / 10) 0 (mk_array3 1 (-2) 0) (mk_array3 1 1 0)).
  cbn [at0]. apply Rabs_diff_self. lra.
Defined.

Lemma frenet_to_cartesian_on_reference_witness :
  frenet_to_cartesian math.NormalizeAngle 1 2 3 4 (1 / 10) 5
    (mk_array3 1 (-2) 7) (mk_array3 0 0 0)
  = Some (mk_CartesianState 2 3 (math.NormalizeAngle 4) (1 / 10)
            (Rabs (-2)) 7).
Proof.
  apply (frenet_to_cartesian_on_reference math.NormalizeAngle
           1 2 3 4 (1 / 10) 5 (mk_array3 1 (-2) 7)).
  cbn [at0]. apply Rabs_diff_self. lra.
Defined.

Lemma cartesian_round_trip_witness :
  exists c : CartesianState,
    cartesian_frenet_cartesian math.NormalizeAngle 5 0 0 0 (1 / 10) 0
      0 1 3 2 0 (1 / 4) = Some c /\
    ptr_x c = 0 /\ ptr_y c = 1 /\
    same_direction (ptr_theta c) 0 /\
    ptr_kappa c = 1 / 4 /\ ptr_v c = 3 /\ ptr_a c = 2.
Proof.
  apply (cartesian_round_trip math.NormalizeAngle
           5 0 0 0 (1 / 10) 0 0 1 3 2 0 (1 / 4)).
  - exact NormalizeAngle_whole_turns.
  - rewrite cos_0, sin_0. lra.
  - rewrite cos_0, sin_0. lra.
  - exact quarter_turn_around_zero.
  - lra.
Defined.

Lemma CalculateKappa_agrees_with_frenet_to_cartesian_witness :
  exists c : CartesianState,
    frenet_to_cartesian math.NormalizeAngle 1 2 3 0 (1 / 10) 0
      (mk_array3 1 2 0) (mk_array3 1 1 0) = Some c /\
    ptr_kappa c = CalculateKappa (1 / 10) 0 1 1 0.
Proof.
  apply (CalculateKappa_agrees_with_frenet_to_cartesian math.NormalizeAngle
           1 2 3 0 (1 / 10) 0 (mk_array3 1 2 0) (mk_array3 1 1 0)).
  - cbn [at0]. apply Rabs_diff_self. lra.
  - cbn [at0]. lra.
  - cbn [at0 at1]. lra.
Defined.

Lemma CalculateKappa_away_from_singularity_witness :
  1e-8 <= 0 * 0 + (1 - 2 * (1 / 10)) * (1 - 2 * (1 / 10)) /\
  CalculateKappa (1 / 10) 0 2 0 3 =
  (1 / 10 + 3 - 2 * 2 * (1 / 10) * (1 / 10) - 2 * 3 * (1 / 10) +
   2 * 2 * (1 / 10) * (1 / 10) * (1 / 10) + 2 * 0 * 0 +
   2 * 0 * 0 * (1 / 10)) /
  ((0 * 0 + (1 - 2 * (1 / 10)) * (1 - 2 * (1 / 10))) *
   sqrt (0 * 0 + (1 - 2 * (1 / 10)) * (1 - 2 * (1 / 10)))).
Proof.
  apply (CalculateKappa_away_from_singularity (1 / 10) 0 2 0 3).
  left. rewrite Rabs_pos_eq; lra.
Defined.

Lemma CalculateKappa_of_lateral_derivatives_witness :
  CalculateKappa (1 / 10) 0 2
    (CalculateLateralDerivative 0 0 2 (1 / 10))
    (CalculateSecondOrderLateralDerivative 0 0 (1 / 10) (1 / 4) 0 2)
  = 1 / 4.
Proof.
  apply (CalculateKappa_of_lateral_derivatives 0 0 (1 / 10) (1 / 4) 0 2).
  - lra.
  - exact quarter_turn_around_zero.
Defined.

Lemma lateral_derivative_of_CalculateTheta_witness :
  CalculateLateralDerivative 0
    (CalculateTheta math.NormalizeAngle 0 (1 / 10) 2 (-3)) 2 (1 / 10) = -3.
Proof.
  apply (lateral_derivative_of_CalculateTheta math.NormalizeAngle
           0 (1 / 10) 2 (-3)).
  - exact NormalizeAngle_whole_turns.
  - lra.
Defined.

Lemma CalculateTheta_of_lateral_derivative_witness :
  same_direction
    (CalculateTheta math.NormalizeAngle 0 (1 / 10) 2
       (CalculateLateralDerivative 0 0 2 (1 / 10)))
    0.
Proof.
  apply (CalculateTheta_of_lateral_derivative math.NormalizeAngle
           0 0 (1 / 10) 2).
  - exact NormalizeAngle_whole_turns.
  - lra.
  - exact quarter_turn_around_zero.
Defined.

Lemma ASSERT_LT_holds (a b : R) (k : outcome) :
  a < b -> ASSERT_LT a b k = k.
Proof.
  intros H. unfold ASSERT_LT.
  destruct (Rlt_dec a b); [reflexivity | contradiction].
Qed.

(** A two-sample path 0.3 long, checked at the step size 0.5 against its own
    end points. *)
Lemma short_path_passes :
  check 0.5 (mk_Node3d 0 0 0) (mk_Node3d 0.3 0 0)
    (mk_ReedSheppPath (0 :: 0.3 :: nil) (0 :: 0 :: nil) (0 :: 0 :: nil))
  = passed.
Proof.
  unfold check.
  cbn [x y phi GetX GetY GetPhi front back last length Nat.sub
       check_intervals at_ nth_error].
  rewrite !ASSERT_LT_holds; try lra.
  - reflexivity.
  - apply sqrt_lt_1_alt. lra.
Qed.

Lemma check_passed_witness :
  (1 < length (0%R :: 0.3%R :: nil))%nat /\
  (length (0%R :: 0.3%R :: nil) <= length (0%R :: 0%R :: nil))%nat /\
  0 :: 0 :: nil <> nil /\
  (forall n : nat, (1 <= n < length (0%R :: 0.3%R :: nil))%nat ->
     sqrt ((nth n (0 :: 0.3 :: nil) 0 - nth (n - 1) (0 :: 0.3 :: nil) 0) *
           (nth n (0 :: 0.3 :: nil) 0 - nth (n - 1) (0 :: 0.3 :: nil) 0) +
           (nth n (0 :: 0 :: nil) 0 - nth (n - 1) (0 :: 0 :: nil) 0) *
           (nth n (0 :: 0 :: nil) 0 - nth (n - 1) (0 :: 0 :: nil) 0))
     < sqrt 2 * Rabs 0.5) /\
  0 - nth 0 (0 :: 0.3 :: nil) 0 < 0.01 /\
  0 - nth 0 (0 :: 0 :: nil) 0 < 0.01 /\
  0 - nth 0 (0 :: 0 :: nil) 0 < 0.01 /\
  0.3 - last (0 :: 0.3 :: nil) 0 < 0.01 /\
  0 - last (0 :: 0 :: nil) 0 < 0.01 /\
  0 - last (0 :: 0 :: nil) 0 < 0.01.
Proof.
  exact (check_passed 0.5 (mk_Node3d 0 0 0) (mk_Node3d 0.3 0 0)
           (mk_ReedSheppPath (0 :: 0.3 :: nil) (0 :: 0 :: nil)
              (0 :: 0 :: nil))
           short_path_passes).
Defined.

Lemma check_one_sided_witness :
  check 0.5 (mk_Node3d (-100) (-100) (-100)) (mk_Node3d (-100) (-100) (-100))
    (mk_ReedSheppPath (0 :: 0.3 :: nil) (0 :: 0 :: nil) (0 :: 0 :: nil))
  = passed.
Proof.
  apply (check_one_sided 0.5 (mk_Node3d 0 0 0) (mk_Node3d 0.3 0 0)
           (mk_Node3d (-100) (-100) (-100))
           (mk_Node3d (-100) (-100) (-100))
           (mk_ReedSheppPath (0 :: 0.3 :: nil) (0 :: 0 :: nil)
              (0 :: 0 :: nil))
           short_path_passes); cbn [GetX GetY GetPhi]; lra.
Defined.

(** * Real arithmetic and binary64 *)

(** Where the statement of a property depends on how [double] is read, it
    is stated for both readings: over the reals for the formulas, and in
    binary64, at instances evaluated by the kernel, for the code. *)

Import Floats.

#[local] Set Warnings "-inexact-float".





(** The second-order derivative in binary64 for a heading 0.5 rad off the
    reference heading and a curvature 1, at the reference point of a
    straight reference line: the inline expression and the helper round
    the division by the squared cosine differently. *)
Lemma second_order_helper_differs_counterexample :
  binary64.at0
    (snd (binary64.cartesian_to_frenet
            binary64.sampled_sin binary64.sampled_cos binary64.sampled_tan
            0 0 0 0 0 0 0 0 0 0 0.5 1)) = 0%float /\
  binary64.at2
    (snd (binary64.cartesian_to_frenet
            binary64.sampled_sin binary64.sampled_cos binary64.sampled_tan
            0 0 0 0 0 0 0 0 0 0 0.5 1)) = 1.4795717996180124%float /\
  binary64.CalculateSecondOrderLateralDerivative
    binary64.sampled_cos binary64.sampled_tan 0 0.5 0 1 0 0
  = 1.4795717996180127%float /\
  binary64.at2
    (snd (binary64.cartesian_to_frenet
            binary64.sampled_sin binary64.sampled_cos binary64.sampled_tan
            0 0 0 0 0 0 0 0 0 0 0.5 1)) <>
  binary64.CalculateSecondOrderLateralDerivative
    binary64.sampled_cos binary64.sampled_tan 0 0.5 0 1 0 0.
Proof.
  split; [vm_compute; reflexivity |].
  split; [vm_compute; reflexivity |].
  split; [vm_compute; reflexivity |].
  intros H.
  apply (f_equal (fun z => eqb z 1.4795717996180127%float)) in H.
  vm_compute in H. discriminate H.
Qed.

(** C8, amended.  Over exact real arithmetic
    [CalculateSecondOrderLateralDerivative] returns the value of the
    d_condition[2] expression of [cartesian_to_frenet] at corresponding
    arguments (l = d_condition[0], with d_condition[1] equal to
    [CalculateLateralDerivative] of the same arguments).  In binary64 the
    two differ in one operation, the helper dividing by the product
    cos * cos where the inline code divides by cos twice: they return the
    same double whenever these two quotients are the same double, whatever
    the C library returns, and can differ in the last place otherwise. *)
Theorem second_order_helper_agrees_up_to_grouping :
  (forall rs rx ry rtheta rkappa rdkappa x y v a theta kappa : R,
     (let d_condition :=
        snd (cartesian_to_frenet rs rx ry rtheta rkappa rdkappa
               x y v a theta kappa) in
      at1 d_condition =
        CalculateLateralDerivative rtheta theta (at0 d_condition) rkappa /\
      at2 d_condition =
        CalculateSecondOrderLateralDerivative
          rtheta theta rkappa kappa rdkappa (at0 d_condition)) /\
     (forall l : R,
        let d_condition :=
          snd (cartesian_to_frenet rs rx ry rtheta rkappa rdkappa
                 (rx - sin rtheta * l)
                 (ry + cos rtheta * l)
                 v a theta kappa) in
        at0 d_condition = l /\
        at1 d_condition = CalculateLateralDerivative rtheta theta l rkappa /\
        at2 d_condition =
          CalculateSecondOrderLateralDerivative
            rtheta theta rkappa kappa rdkappa l)) /\
  (forall (sin cos tan : float -> float)
          (rs rx ry rtheta rkappa rdkappa x y v a theta kappa
             : float),
     let d_condition :=
       snd (binary64.cartesian_to_frenet sin cos tan
              rs rx ry rtheta rkappa rdkappa x y v a theta kappa) in
     let m := (1 - rkappa * binary64.at0 d_condition)%float in
     let c := cos (theta - rtheta)%float in
     (m / c / c)%float = (m / (c * c))%float ->
     binary64.at1 d_condition =
       binary64.CalculateLateralDerivative tan
         rtheta theta (binary64.at0 d_condition) rkappa /\
     binary64.at2 d_condition =
       binary64.CalculateSecondOrderLateralDerivative cos tan
         rtheta theta rkappa kappa rdkappa (binary64.at0 d_condition)).
Proof.
  split.
  - intros rs rx ry rtheta rkappa rdkappa x y v a theta kappa.
    exact (second_order_real_agreement
             rs rx ry rtheta rkappa rdkappa x y v a theta kappa).
  - intros sin cos tan rs rx ry rtheta rkappa rdkappa x y v a theta kappa
           d_condition m c Hgrouping.
    split; [reflexivity |].
    unfold binary64.CalculateSecondOrderLateralDerivative,
           binary64.CalculateLateralDerivative.
    cbv zeta. fold m c. rewrite <- Hgrouping. reflexivity.
Qed.

Lemma second_order_helper_agrees_up_to_grouping_witness :
  binary64.at2
    (snd (binary64.cartesian_to_frenet
            binary64.sampled_sin binary64.sampled_cos binary64.sampled_tan
            0 0 0 0 0.2 0.1 0 3.44 0 0 0 1)) =
  binary64.CalculateSecondOrderLateralDerivative
    binary64.sampled_cos binary64.sampled_tan 0 0 0.2 1 0.1
    (binary64.at0
       (snd (binary64.cartesian_to_frenet
               binary64.sampled_sin binary64.sampled_cos binary64.sampled_tan
               0 0 0 0 0.2 0.1 0 3.44 0 0 0 1))).
Proof.
  apply (proj2 second_order_helper_agrees_up_to_grouping
           binary64.sampled_sin binary64.sampled_cos binary64.sampled_tan
           0 0 0 0 0.2 0.1 0 3.44 0 0 0 1)%float.
  vm_compute. reflexivity.
Defined.
